(** * pyppeteer.tracing: the trace-capture controller and its stream drainer

    A shallow embedding of [src/pyppeteer/tracing.py] (class [Tracing] with
    [start], [stop] and [_readStream]) together with the properties its
    specification states about it.

    The three methods are coroutines run by an event loop.  Between two
    [await]s a coroutine runs without interruption, so each coroutine is cut
    at its [await]s into segments, and a segment is a function on the state
    of the whole system.  What a suspended coroutine still has to do is kept
    as a continuation [cont] (the line it is suspended at and its local
    variables).  The environment drives the system with stimuli: a caller
    invoking [start] or [stop], the session answering a command, the session
    emitting an event.

    The session itself ([pyppeteer.connection.CDPSession]) is not part of
    this module.  Of it the model keeps the calls made on it, in order
    ([issued]), its one-shot listeners, and the commands it has not answered
    yet; it answers commands in the order it received them.  A command that
    fails, at once or later, is a command answered with an exception.
    Strings are sequences of 8-bit characters, and the [categories] argument
    ranges over [None], numbers, strings, tuples of strings and lists of
    strings. *)

From Stdlib Require Import ZArith String Ascii.
From stdpp Require Import gmap strings list.

Open Scope string_scope.
Open Scope list_scope.

(** ** Python values *)

(** The values that travel in protocol messages. *)
Inductive val : Type :=
| VNone
| VBool (b : bool)
| VInt (z : Z)
| VStr (s : string).

(** A message payload: a Python [dict] with string keys. *)
Abbreviation dict := (gmap string val).

(** [d.get(key, dflt)] *)
Definition dict_get (d : dict) (key : string) (dflt : val) : val :=
  default dflt (d !! key).

(** Python truth value of a value, as [while not eof] tests it. *)
Definition truthy (v : val) : bool :=
  match v with
  | VNone => false
  | VBool b => b
  | VInt z => negb (z =? 0)%Z
  | VStr s => negb (String.eqb s "")
  end.

(** [sep.join(l)] on a list of strings. *)
Definition str_join (sep : string) (l : list string) : string :=
  String.concat sep l.

(** [list(s)] for a string [s]: its characters, each a string of length one. *)
Fixpoint chars (s : string) : list string :=
  match s with
  | EmptyString => []
  | String c s' => String c EmptyString :: chars s'
  end.

(** The strings inside a list of values; [None] when an element is not a
    string, where [''.join] raises [TypeError]. *)
Fixpoint all_str (l : list val) : option (list string) :=
  match l with
  | [] => Some []
  | VStr s :: l' => cons s <$> all_str l'
  | _ :: _ => None
  end.

(** [''.join(bufs)] *)
Definition join_bufs (bufs : list val) : option string :=
  str_join "" <$> all_str bufs.

Inductive exn : Type :=
| TypeError
| OSError                        (* what [file.open('w')] and [f.write] raise *)
| SessionError (msg : string).   (* whatever [CDPSession.send] raises *)

(** How a finished coroutine ended. *)
Inductive outcome : Type :=
| Returned (v : val)
| Raised (e : exn).

(** ** The session, seen from [Tracing] *)

(** An operation issued to the session ([self._client]). *)
Inductive call : Type :=
| Once (event : string)
| Send (method : string) (params : option dict).

(** The session's answer to a command: what [await self._client.send(..)]
    evaluates to, or the exception it raises. *)
Inductive reply : Type :=
| Response (d : dict)
| Failure (e : exn).

(** The [categories] argument of [start].  [AList l] is the list object at
    address [l] of the heap: the caller keeps a reference to it. *)
Inductive pyarg : Type :=
| ANone
| AInt (z : Z)
| AStr (s : string)
| ATuple (xs : list string)
| AList (l : nat).

(** A coroutine suspended at an [await self._client.send(..)]. *)
Inductive cont : Type :=
| AtStartSend (c : nat)                      (* start, line 69 *)
| AtStopSend (c : nat)                       (* stop, line 85 *)
| AtRead (handle : val) (path : string) (bufs : list val) (fut : nat)
                                             (* _readStream, line 94 *)
| AtClose (handle : val) (path : string) (bufs : list val) (fut : nat).
                                             (* _readStream, line 97 *)

(** A [contentFuture] that is no longer fresh: [stop] is suspended on it
    (line 87), or it holds its result. *)
Inductive future : Type :=
| Awaited
| Resolved (v : val).

(** What the file system holds at a path: a file and its contents, or
    something that cannot be opened for writing or written to (a directory,
    a file without write permission, a path under a missing directory). *)
Inductive node : Type :=
| File (contents : string)
| Locked.

(** The state of the system.  [_recording] and [_path] are the fields of the
    [Tracing] object.  A call of [start] or [stop] is named by a number; a
    call of [stop] gives that number to the [contentFuture] it creates and to
    the listener whose closure holds that future. *)
Record state : Type := mkState {
  _recording : bool;
  _path : string;
  heap : nat → list string;          (* the list objects callers hold *)
  files : gmap string node;          (* the file system *)
  issued : list call;                (* operations issued to the session, oldest first *)
  listeners : list (string * nat);   (* armed one-shot listeners *)
  inflight : list cont;              (* commands not yet answered, oldest first *)
  futures : gmap nat future;
  outcomes : gmap nat outcome;       (* the calls that have finished *)
  next : nat                         (* the number of the next call *)
}.

Definition set_recording (b : bool) (s : state) : state :=
  mkState b (_path s) (heap s) (files s) (issued s) (listeners s)
          (inflight s) (futures s) (outcomes s) (next s).

Definition set_path (p : string) (s : state) : state :=
  mkState (_recording s) p (heap s) (files s) (issued s) (listeners s)
          (inflight s) (futures s) (outcomes s) (next s).

Definition set_heap (h : nat → list string) (s : state) : state :=
  mkState (_recording s) (_path s) h (files s) (issued s) (listeners s)
          (inflight s) (futures s) (outcomes s) (next s).

Definition set_files (f : gmap string node) (s : state) : state :=
  mkState (_recording s) (_path s) (heap s) f (issued s) (listeners s)
          (inflight s) (futures s) (outcomes s) (next s).

Definition set_issued (i : list call) (s : state) : state :=
  mkState (_recording s) (_path s) (heap s) (files s) i (listeners s)
          (inflight s) (futures s) (outcomes s) (next s).

Definition set_listeners (l : list (string * nat)) (s : state) : state :=
  mkState (_recording s) (_path s) (heap s) (files s) (issued s) l
          (inflight s) (futures s) (outcomes s) (next s).

Definition set_inflight (q : list cont) (s : state) : state :=
  mkState (_recording s) (_path s) (heap s) (files s) (issued s) (listeners s)
          q (futures s) (outcomes s) (next s).

Definition set_futures (f : gmap nat future) (s : state) : state :=
  mkState (_recording s) (_path s) (heap s) (files s) (issued s) (listeners s)
          (inflight s) f (outcomes s) (next s).

Definition set_outcomes (o : gmap nat outcome) (s : state) : state :=
  mkState (_recording s) (_path s) (heap s) (files s) (issued s) (listeners s)
          (inflight s) (futures s) o (next s).

Definition set_next (n : nat) (s : state) : state :=
  mkState (_recording s) (_path s) (heap s) (files s) (issued s) (listeners s)
          (inflight s) (futures s) (outcomes s) n.

(** A [Tracing] object just built by [__init__] (lines 26-29) on a session
    nothing has been issued to yet. *)
Definition init (h : nat → list string) : state :=
  mkState false "" h ∅ [] [] [] ∅ ∅ 0.

(** *** Session primitives *)

(** [await self._client.send(method, params)]: the command is issued and the
    coroutine is suspended, as [k], until the session answers. *)
Definition client_send (method : string) (params : option dict) (k : cont)
    (s : state) : state :=
  set_inflight (inflight s ++ [k]) (set_issued (issued s ++ [Send method params]) s).

(** [self._client.once(event, listener)], the listener being the lambda of
    lines 81-83 closed over the [contentFuture] numbered [fut]. *)
Definition client_once (event : string) (fut : nat) (s : state) : state :=
  set_listeners (listeners s ++ [(event, fut)]) (set_issued (issued s ++ [Once event]) s).

(** The coroutine of call [c] finishes. *)
Definition finish (c : nat) (o : outcome) (s : state) : state :=
  set_outcomes (<[c := o]> (outcomes s)) s.

(** A fresh call number. *)
Definition fresh (s : state) : nat * state := (next s, set_next (S (next s)) s).

(** ** [Tracing.start] (lines 31-71) *)

Definition defaultCategories : list string :=
  [ "-*";
    "devtools.timeline";
    "v8.execute";
    "disabled-by-default-devtools.timeline";
    "disabled-by-default-devtools.timeline.frame";
    "toplevel";
    "blink.console";
    "blink.user_timing";
    "latencyInfo";
    "disabled-by-default-devtools.timeline.stack";
    "disabled-by-default-v8.cpu_profiler";
    "disabled-by-default-v8.cpu_profiler.hires" ].

(** What the local variable [categories] is bound to after lines 58-62:
    the caller's own list object, or a list no one else refers to. *)
Inductive catlist : Type :=
| Shared (l : nat)
| Owned (xs : list string).

(** [list(x)]: the elements [x] yields when iterated, a string yielding its
    characters; [None] where [list] raises [TypeError] because [x] is not
    iterable. *)
Definition py_list (x : pyarg) (s : state) : option (list string) :=
  match x with
  | AList l => Some (heap s l)
  | ATuple xs => Some xs
  | AStr str => Some (chars str)
  | ANone | AInt _ => None
  end.

(** Lines 58-62: a list ([isinstance(categories, list)]) is kept, the very
    object; anything else goes through [list(categories)], and through the
    default when that raises [TypeError]. *)
Definition resolve_categories (categories : pyarg) (s : state) : catlist :=
  match categories with
  | AList l => Shared l
  | _ =>
      match py_list categories s with
      | Some xs => Owned xs
      | None => Owned defaultCategories
      end
  end.

(** [categories.append(x)]: in place when the list is the caller's. *)
Definition cat_append (x : string) (cl : catlist) (s : state) : catlist * state :=
  match cl with
  | Shared l =>
      (Shared l, set_heap (fun l' => if decide (l' = l) then heap s l ++ [x] else heap s l') s)
  | Owned xs => (Owned (xs ++ [x]), s)
  end.

(** The elements of [categories] when line 70 reads them. *)
Definition cat_elements (cl : catlist) (s : state) : list string :=
  match cl with
  | Shared l => heap s l
  | Owned xs => xs
  end.

(** [start] up to its [await] on line 69. *)
Definition start (path : string) (screenshots : bool) (categories : pyarg)
    (s : state) : state :=
  let '(c, s) := fresh s in
  (* 58-62 *)
  let cl := resolve_categories categories s in
  (* 64-65 *)
  let '(cl, s) :=
    if screenshots then cat_append "disabled-by-default-devtools.screenshot" cl s
    else (cl, s) in
  (* 67 *)
  let s := set_path path s in
  (* 68 *)
  let s := set_recording true s in
  (* 69-71 *)
  client_send "Tracing.start"
    (Some (<["transferMode" := VStr "ReturnAsStream"]>
             (<["categories" := VStr (str_join "," (cat_elements cl s))]> ∅)))
    (AtStartSend c) s.

(** ** [Tracing._readStream] (lines 89-104) *)

(** Lines 93-94: the test [while not eof] has just succeeded; the next
    chunk is requested. *)
Definition read_next (handle : val) (path : string) (bufs : list val) (fut : nat)
    (s : state) : state :=
  client_send "IO.read" (Some {["handle" := handle]}) (AtRead handle path bufs fut) s.

(** [_readStream(handle, path)] from its first line to its first [await].
    [fut] names the [contentFuture] that the done-callback of the task
    running this coroutine will resolve. *)
Definition _readStream (handle : val) (path : string) (fut : nat) (s : state) : state :=
  (* 91-92: eof = False; bufs = [] *)
  read_next handle path [] fut s.

(** [contentFuture.set_result(v)].  It wakes the [stop] suspended on the
    future, which returns [v] (line 87).  On a future that already has a
    result it raises [InvalidStateError], inside the callback. *)
Definition set_result (fut : nat) (v : val) (s : state) : state :=
  match futures s !! fut with
  | None => set_futures (<[fut := Resolved v]> (futures s)) s
  | Some Awaited => finish fut (Returned v) (set_futures (<[fut := Resolved v]> (futures s)) s)
  | Some (Resolved _) => s
  end.

(** The done-callback of line 83, [lambda fut: contentFuture.set_result(fut.result())],
    run when the task of [_readStream] has ended with [o].  When the task
    has raised, [fut.result()] raises again inside the callback: the event
    loop reports it and [contentFuture] is left without a result. *)
Definition task_done (fut : nat) (o : outcome) (s : state) : state :=
  match o with
  | Returned v => set_result fut v s
  | Raised _ => s
  end.

(** [_readStream] resumed on line 94 with the session's answer. *)
Definition resume_read (handle : val) (path : string) (bufs : list val) (fut : nat)
    (r : reply) (s : state) : state :=
  match r with
  | Failure e => task_done fut (Raised e) s
  | Response response =>
      (* 95 *)
      let eof := dict_get response "eof" (VBool false) in
      (* 96 *)
      let bufs := bufs ++ [dict_get response "data" (VStr "")] in
      (* 93 *)
      if truthy eof
      then (* 97 *)
        client_send "IO.close" (Some {["handle" := handle]}) (AtClose handle path bufs fut) s
      else read_next handle path bufs fut s
  end.

(** Lines 100-103: when [path] is not empty, [result] becomes the whole
    contents of the file at [path]; [None] when the file cannot be opened
    or written, where [OSError] is raised and the file system is left as
    it was. *)
Definition persist (path : string) (result : string) (s : state) : option state :=
  if String.eqb path "" then Some s
  else
    match files s !! path with
    | Some Locked => None
    | _ => Some (set_files (<[path := File result]> (files s)) s)
    end.

(** [_readStream] resumed on line 97 with the session's answer. *)
Definition resume_close (handle : val) (path : string) (bufs : list val) (fut : nat)
    (r : reply) (s : state) : state :=
  match r with
  | Failure e => task_done fut (Raised e) s
  | Response _ =>
      (* 99 *)
      match join_bufs bufs with
      | None => task_done fut (Raised TypeError) s
      | Some result =>
          (* 100-103 *)
          match persist path result s with
          | None => task_done fut (Raised OSError) s
          | Some s =>
              (* 104 *)
              task_done fut (Returned (VStr result)) s
          end
      end
  end.

Arguments persist : simpl never.

(** ** [Tracing.stop] (lines 73-87) *)

(** [stop] up to its [await] on line 85. *)
Definition stop (s : state) : state :=
  (* 78: the call and its contentFuture share the number c *)
  let '(c, s) := fresh s in
  (* 79-84 *)
  let s := client_once "Tracing.tracingComplete" c s in
  (* 85 *)
  client_send "Tracing.end" None (AtStopSend c) s.

(** [stop] resumed on line 85 with the session's answer. *)
Definition resume_stop (c : nat) (r : reply) (s : state) : state :=
  match r with
  | Failure e => finish c (Raised e) s
  | Response _ =>
      (* 86 *)
      let s := set_recording false s in
      (* 87 *)
      match futures s !! c with
      | Some (Resolved v) => finish c (Returned v) s
      | _ => set_futures (<[c := Awaited]> (futures s)) s
      end
  end.

(** [start] resumed on line 69 with the session's answer. *)
Definition resume_start (c : nat) (r : reply) (s : state) : state :=
  match r with
  | Failure e => finish c (Raised e) s
  | Response _ => finish c (Returned VNone) s
  end.

Definition resume (k : cont) (r : reply) (s : state) : state :=
  match k with
  | AtStartSend c => resume_start c r s
  | AtStopSend c => resume_stop c r s
  | AtRead handle path bufs fut => resume_read handle path bufs fut r s
  | AtClose handle path bufs fut => resume_close handle path bufs fut r s
  end.

(** ** The event loop *)

(** The listener of lines 81-83, closed over the [contentFuture] numbered
    [fut], called with [event]: it starts the task of
    [_readStream(event.get('stream'), self._path)]. *)
Definition listener (fut : nat) (event : dict) (s : state) : state :=
  _readStream (dict_get event "stream" VNone) (_path s) fut s.

(** The session emits [name]: every listener armed for it is disarmed and
    called, in the order of registration. *)
Definition emit (name : string) (event : dict) (s : state) : state :=
  let fired := filter (λ l, l.1 = name) (listeners s) in
  let kept := filter (λ l, l.1 ≠ name) (listeners s) in
  foldl (λ s l, listener l.2 event s) (set_listeners kept s) fired.

(** The session answers its oldest unanswered command: the coroutine that
    awaits the answer is resumed with it. *)
Definition answer (r : reply) (s : state) : state :=
  match inflight s with
  | [] => s
  | k :: q => resume k r (set_inflight q s)
  end.

Inductive stimulus : Type :=
| CallStart (path : string) (screenshots : bool) (categories : pyarg)
| CallStop
| Reply (r : reply)
| Emit (name : string) (event : dict).

Definition step (s : state) (x : stimulus) : state :=
  match x with
  | CallStart path screenshots categories => start path screenshots categories s
  | CallStop => stop s
  | Reply r => answer r s
  | Emit name event => emit name event s
  end.

Definition run (s : state) (xs : list stimulus) : state := foldl step s xs.

(** ** Vocabulary of the statements *)

#[global] Instance val_eq_dec : EqDecision val.
Proof. solve_decision. Defined.

#[global] Instance exn_eq_dec : EqDecision exn.
Proof. solve_decision. Defined.

#[global] Instance call_eq_dec : EqDecision call.
Proof. solve_decision. Defined.

(** How many times the operation [c] occurs in a log. *)
Definition times (c : call) (log : list call) : nat :=
  length (filter (λ x, x = c) log).

(** The call whose coroutine is suspended in [k], when [k] is the
    coroutine of a call; a drain runs in a task of its own. *)
Definition pending_call (k : cont) : option nat :=
  match k with
  | AtStartSend c | AtStopSend c => Some c
  | AtRead _ _ _ _ | AtClose _ _ _ _ => None
  end.

(** The call [c] has been made, is not suspended on a command, and has not
    raised. *)
Definition past_its_send (c : nat) (s : state) : Prop :=
  c < next s
  ∧ Forall (λ k, pending_call k ≠ Some c) (inflight s)
  ∧ ∀ e, outcomes s !! c ≠ Some (Raised e).

(** The call [c] of [stop] is suspended on its ['Tracing.end'], which is
    the oldest unanswered command: the session's next answer is for it. *)
Definition at_its_send (c : nat) (s : state) : Prop :=
  c < next s
  ∧ (∃ q, inflight s = AtStopSend c :: q
          ∧ Forall (λ k, pending_call k ≠ Some c) q)
  ∧ ∀ e, outcomes s !! c ≠ Some (Raised e).

(** The first answer of the session among the stimuli [xs]. *)
Fixpoint first_reply (xs : list stimulus) : option reply :=
  match xs with
  | [] => None
  | Reply r :: _ => Some r
  | _ :: xs' => first_reply xs'
  end.

(** The [IO.read] and [IO.close] commands for a stream handle. *)
Definition io_read (handle : val) : call := Send "IO.read" (Some {["handle" := handle]}).
Definition io_close (handle : val) : call := Send "IO.close" (Some {["handle" := handle]}).

(** The end-of-stream flag of an [IO.read] response, false when absent. *)
Definition eof_of (response : dict) : bool :=
  truthy (dict_get response "eof" (VBool false)).

(** The chunk of an [IO.read] response whose [data], when present, is a
    string: the empty string when [data] is absent. *)
Definition chunk_of (response : dict) : string :=
  match response !! "data" with
  | Some (VStr str) => str
  | _ => ""
  end.

(** [data] is absent or a string. *)
Definition data_ok (response : dict) : Prop :=
  ∀ v, response !! "data" = Some v → ∃ str, v = VStr str.

(** Nothing keeps the drain from writing [result] at [path]: [path] is
    empty, so that nothing is written, or what is at [path] can be opened
    for writing. *)
Definition can_persist (path : string) (s : state) : Prop :=
  path = "" ∨ files s !! path ≠ Some Locked.

(** The session answers its next commands with the responses [ds]. *)
Definition responses (ds : list dict) : list stimulus :=
  map (λ d, Reply (Response d)) ds.

(** The parameters of the [Tracing.start] command carrying the category
    filter [cats]. *)
Definition start_params (cats : list string) : option dict :=
  Some (<["transferMode" := VStr "ReturnAsStream"]>
          (<["categories" := VStr (str_join "," cats)]> ∅)).

Definition screenshot_token (screenshots : bool) : list string :=
  if screenshots then ["disabled-by-default-devtools.screenshot"] else [].

(** Does [k] belong to the call [c]: is it the coroutine of that call, or
    the drain whose result goes to the [contentFuture] of that call? *)
Definition belongs_to (c : nat) (k : cont) : Prop :=
  match k with
  | AtStartSend c' | AtStopSend c' => c' = c
  | AtRead _ _ _ fut | AtClose _ _ _ fut => fut = c
  end.

(** Nothing in the system can end the call [c] any more, unless the session
    emits an event whose name is in [names]: [c] is not suspended on a
    command, no drain works for it, and the only listeners that would start
    one are registered for a name in [names]. *)
Definition asleep (names : string → Prop) (c : nat) (s : state) : Prop :=
  c < next s
  ∧ Forall (λ k, ¬ belongs_to c k) (inflight s)
  ∧ Forall (λ l, l.2 = c → names l.1) (listeners s).

(** The stimulus is not an event with a name in [names]. *)
Definition not_emit (names : string → Prop) (x : stimulus) : Prop :=
  match x with
  | Emit name _ => ¬ names name
  | _ => True
  end.

(** The stimuli of one whole capture: [start], [stop], the completion
    signal [event] and a drain served [reads], every command being answered
    with an empty response. *)
Definition capture (path : string) (screenshots : bool) (categories : pyarg)
    (event : dict) (reads : list dict) : list stimulus :=
  [ CallStart path screenshots categories; Reply (Response ∅);
    CallStop; Reply (Response ∅);
    Emit "Tracing.tracingComplete" event ]
  ++ responses reads ++ [Reply (Response ∅)].

(** Is [k] a drain working for the [contentFuture] numbered [f]? *)
Definition drain_of (f : nat) (k : cont) : bool :=
  match k with
  | AtRead _ _ _ f' | AtClose _ _ _ f' => bool_decide (f' = f)
  | AtStartSend _ | AtStopSend _ => false
  end.

(** Is [l] a listener closed over the [contentFuture] numbered [f]? *)
Definition armed_for (f : nat) (l : string * nat) : bool := bool_decide (l.2 = f).

(** The commands that drains for [f] have unanswered, plus the listeners
    that would start a drain for [f]. *)
Definition load (f : nat) (s : state) : nat :=
  length (List.filter (drain_of f) (inflight s))
  + length (List.filter (armed_for f) (listeners s)).

(** Every number not yet given to a call has no drain and no listener, and
    no number has more than one of them. *)
Definition one_drain_each (s : state) : Prop :=
  ∀ f, (load f s ≤ 1)%nat ∧ ((next s ≤ f)%nat → load f s = 0).

(** * Properties *)

(** ** What [start] sends *)

(** What [start] sends, for any argument: the elements of the list that
    lines 58-62 select, then the screenshot token when asked for. *)
Lemma start_issued path screenshots categories s :
  issued (start path screenshots categories s) =
  issued s ++
  [Send "Tracing.start"
     (start_params (cat_elements (resolve_categories categories s) s
                    ++ screenshot_token screenshots))].
Proof.
  unfold start, fresh.
  destruct categories, screenshots; cbn;
    rewrite ?decide_True by reflexivity; rewrite ?app_nil_r; reflexivity.
Qed.

(** ** The category filter that [start] serializes *)

(** C4: for a list-like [categories] (one that [list] can iterate) whose
    elements are [C], [start] sends exactly one command, [Tracing.start],
    with [transferMode] ['ReturnAsStream'] and with [categories] the elements
    of [C] joined by commas, the screenshot token coming last if and only if
    [screenshots] is true. *)
Theorem start_serializes_categories path screenshots categories C s :
  py_list categories s = Some C →
  issued (start path screenshots categories s) =
  issued s ++
  [Send "Tracing.start"
     (Some (<["transferMode" := VStr "ReturnAsStream"]>
              (<["categories" :=
                   VStr (str_join ","
                           (C ++ if screenshots
                                 then ["disabled-by-default-devtools.screenshot"]
                                 else []))]> ∅)))].
Proof.
  intros HC. rewrite start_issued. unfold start_params, screenshot_token.
  destruct categories; simpl in HC; try discriminate;
    injection HC as <-; reflexivity.
Qed.

Lemma start_serializes_categories_witness :
  issued (start "" true (ATuple ["cat1"; "cat2"]) (init (λ _, []))) =
  [Send "Tracing.start"
     (Some (<["transferMode" := VStr "ReturnAsStream"]>
              (<["categories" :=
                   VStr "cat1,cat2,disabled-by-default-devtools.screenshot"]> ∅)))].
Proof.
  exact (start_serializes_categories "" true (ATuple ["cat1"; "cat2"])
           ["cat1"; "cat2"] (init (λ _, [])) eq_refl).
Defined.

(** C5: when [categories] is omitted ([None]) or cannot be converted to a
    list, the serialized filter is the twelve default tokens, in their
    order, followed by the screenshot token if it was asked for. *)
Theorem start_default_categories path screenshots categories s :
  categories = ANone ∨ py_list categories s = None →
  issued (start path screenshots categories s) =
  issued s ++
  [Send "Tracing.start"
     (Some (<["transferMode" := VStr "ReturnAsStream"]>
              (<["categories" :=
                   VStr (str_join ","
                           ([ "-*";
                              "devtools.timeline";
                              "v8.execute";
                              "disabled-by-default-devtools.timeline";
                              "disabled-by-default-devtools.timeline.frame";
                              "toplevel";
                              "blink.console";
                              "blink.user_timing";
                              "latencyInfo";
                              "disabled-by-default-devtools.timeline.stack";
                              "disabled-by-default-v8.cpu_profiler";
                              "disabled-by-default-v8.cpu_profiler.hires" ]
                            ++ if screenshots
                               then ["disabled-by-default-devtools.screenshot"]
                               else []))]> ∅)))].
Proof.
  intros H. rewrite start_issued. unfold start_params, screenshot_token.
  assert (Hn : py_list categories s = None) by (destruct H as [-> | H]; [reflexivity | exact H]).
  destruct categories; simpl in Hn; try discriminate; reflexivity.
Qed.

Lemma start_default_categories_witness :
  issued (start "trace.json" false ANone (init (λ _, []))) =
  [Send "Tracing.start"
     (Some (<["transferMode" := VStr "ReturnAsStream"]>
              (<["categories" :=
                   VStr "-*,devtools.timeline,v8.execute,disabled-by-default-devtools.timeline,disabled-by-default-devtools.timeline.frame,toplevel,blink.console,blink.user_timing,latencyInfo,disabled-by-default-devtools.timeline.stack,disabled-by-default-v8.cpu_profiler,disabled-by-default-v8.cpu_profiler.hires"]> ∅)))].
Proof.
  exact (start_default_categories "trace.json" false ANone (init (λ _, []))
           (or_introl eq_refl)).
Defined.

(** ** Aliasing of the caller's list *)

Lemma heap_start_list path l s :
  heap (start path true (AList l) s) l =
  heap s l ++ ["disabled-by-default-devtools.screenshot"].
Proof. unfold start, fresh. cbn. rewrite decide_True by reflexivity. reflexivity. Qed.

(** C9: called with an actual list and [screenshots=True], [start] appends
    the screenshot token to the caller's own list object: after the call the
    object at the caller's address holds one more element, and [n] calls
    with the same list leave [n] screenshot tokens at its end. *)
Theorem start_mutates_caller_list path l s :
  heap (start path true (AList l) s) l =
    heap s l ++ ["disabled-by-default-devtools.screenshot"]
  ∧ ∀ n, heap (run s (replicate n (CallStart path true (AList l)))) l =
         heap s l ++ replicate n "disabled-by-default-devtools.screenshot".
Proof.
  split; [apply heap_start_list |].
  intros n. revert s. induction n as [| n IH]; intros s.
  - cbn. rewrite app_nil_r. reflexivity.
  - cbn [replicate run foldl]. fold (run (step s (CallStart path true (AList l)))).
    rewrite IH. cbn [step]. rewrite heap_start_list, <- app_assoc. reflexivity.
Qed.

(** ** A string as [categories] *)

Lemma join_chars_not_default (str : string) (extra : list string) :
  (extra = [] ∨ extra = ["disabled-by-default-devtools.screenshot"]) →
  str_join "," (chars str ++ extra) ≠ str_join "," (defaultCategories ++ extra).
Proof.
  intros Hx. destruct str as [| c1 [| c2 rest]].
  - destruct Hx as [-> | ->]; cbn; discriminate.
  - destruct Hx as [-> | ->]; cbn; discriminate.
  - cbn. destruct (chars rest ++ extra); cbn; discriminate.
Qed.

(** C10: a string passed as [categories] is not replaced by the default
    filter: [list] splits it into its characters, and [start] serializes
    those characters joined by commas (followed by the screenshot token when
    asked for), which is never the serialization of the twelve defaults;
    ["abc"] goes on the wire as ["a,b,c"]. *)
Theorem start_string_categories path (screenshots : bool) str s :
  issued (start path screenshots (AStr str) s) =
    issued s ++
    [Send "Tracing.start"
       (Some (<["transferMode" := VStr "ReturnAsStream"]>
                (<["categories" :=
                     VStr (str_join ","
                             (chars str ++
                              if screenshots
                              then ["disabled-by-default-devtools.screenshot"]
                              else []))]> ∅)))]
  ∧ str_join "," (chars str ++
                  if screenshots
                  then ["disabled-by-default-devtools.screenshot"]
                  else [])
    ≠ str_join "," (defaultCategories ++
                    if screenshots
                    then ["disabled-by-default-devtools.screenshot"]
                    else [])
  ∧ issued (start path false (AStr "abc") s) =
    issued s ++
    [Send "Tracing.start"
       (Some (<["transferMode" := VStr "ReturnAsStream"]>
                (<["categories" := VStr "a,b,c"]> ∅)))].
Proof.
  split; [| split].
  - rewrite start_issued. reflexivity.
  - apply join_chars_not_default. destruct screenshots; auto.
  - rewrite start_issued. reflexivity.
Qed.

(** ** Frame lemmas: what each segment leaves alone *)

Lemma persist_frame p result s s' :
  persist p result s = Some s' →
  _recording s' = _recording s
  ∧ issued s' = issued s
  ∧ listeners s' = listeners s
  ∧ inflight s' = inflight s
  ∧ futures s' = futures s
  ∧ outcomes s' = outcomes s
  ∧ next s' = next s.
Proof.
  unfold persist. destruct (String.eqb p "").
  - intros [= <-]. repeat split.
  - destruct (files s !! p) as [[|]|]; intros [= <-] || discriminate; repeat split.
Qed.

(** The write succeeds where nothing keeps it from succeeding. *)
Lemma persist_ok p result s :
  can_persist p s →
  persist p result s =
  Some (if String.eqb p "" then s else set_files (<[p := File result]> (files s)) s).
Proof.
  intros [-> | Hw]; [reflexivity |]. unfold persist.
  destruct (String.eqb p ""); [reflexivity |].
  destruct (files s !! p) as [[|]|]; [reflexivity | contradiction | reflexivity].
Qed.

(** The write fails at a path that is not empty and cannot be written. *)
Lemma persist_locked p result s :
  p ≠ "" → files s !! p = Some Locked → persist p result s = None.
Proof.
  intros Hp Hl. unfold persist. apply String.eqb_neq in Hp. rewrite Hp, Hl. reflexivity.
Qed.

Lemma issued_set_result fut v s : issued (set_result fut v s) = issued s.
Proof. unfold set_result. destruct (futures s !! fut) as [[|]|]; reflexivity. Qed.

Lemma recording_set_result fut v s : _recording (set_result fut v s) = _recording s.
Proof. unfold set_result. destruct (futures s !! fut) as [[|]|]; reflexivity. Qed.

(** The log of operations only grows. *)
Lemma issued_resume k r s : issued s `prefix_of` issued (resume k r s).
Proof.
  destruct k as [c | c | h p bufs f | h p bufs f]; cbn.
  - destruct r; reflexivity.
  - destruct r as [d | e]; cbn; [| reflexivity].
    destruct (futures s !! c) as [[|]|]; reflexivity.
  - destruct r as [d | e]; cbn.
    + destruct (truthy _); cbn; apply prefix_app_r; reflexivity.
    + reflexivity.
  - destruct r as [d | e]; cbn; [| reflexivity].
    destruct (join_bufs bufs) as [result |]; cbn; [| reflexivity].
    destruct (persist p result s) as [s' |] eqn:Hp; cbn; [| reflexivity].
    rewrite issued_set_result.
    apply persist_frame in Hp as (_ & -> & _). reflexivity.
Qed.

Lemma issued_listeners_fold event (fired : list (string * nat)) s :
  issued s `prefix_of` issued (foldl (λ s l, listener l.2 event s) s fired).
Proof.
  revert s. induction fired as [| l fired IH]; intros s; cbn; [reflexivity |].
  etransitivity; [| apply IH]. cbn. apply prefix_app_r. reflexivity.
Qed.

Lemma issued_step s x : issued s `prefix_of` issued (step s x).
Proof.
  destruct x as [path sc cats | | r | name event]; cbn [step].
  - rewrite start_issued. apply prefix_app_r. reflexivity.
  - unfold stop. cbn. rewrite <- app_assoc. apply prefix_app_r. reflexivity.
  - unfold answer. destruct (inflight s) as [| k q]; [reflexivity |].
    apply (issued_resume k r (set_inflight q s)).
  - unfold emit. apply (issued_listeners_fold event _ (set_listeners _ s)).
Qed.

Lemma issued_run s xs : issued s `prefix_of` issued (run s xs).
Proof.
  revert s. induction xs as [| x xs IH]; intros s; cbn; [reflexivity |].
  etransitivity; [apply (issued_step s x) | apply IH].
Qed.

(** ** The order of operations in [stop] *)

Lemma stop_issued s :
  issued (stop s) = issued s ++ [Once "Tracing.tracingComplete"; Send "Tracing.end" None].
Proof. unfold stop. cbn. rewrite <- app_assoc. reflexivity. Qed.

(** C1: every execution of [stop] registers the one-shot listener for
    ['Tracing.tracingComplete'] strictly before it sends ['Tracing.end']:
    whatever was issued before the call ([issued s]) and whatever the
    environment does after it ([xs]), the operations issued to the session
    are those issued before, then the [once], then the [send], then the
    later ones; and when the command has been sent the listener is armed. *)
Theorem stop_arms_listener_before_end s xs :
  (∃ later,
     issued (run (stop s) xs) =
     issued s ++ [Once "Tracing.tracingComplete"; Send "Tracing.end" None] ++ later)
  ∧ ("Tracing.tracingComplete", next s) ∈ listeners (stop s).
Proof.
  split.
  - destruct (issued_run (stop s) xs) as [later Hl].
    exists later. rewrite Hl, stop_issued, <- app_assoc. reflexivity.
  - unfold stop. cbn. apply elem_of_app. right. apply list_elem_of_singleton. reflexivity.
Qed.

(** ** The drain loop *)

Lemma run_app s xs ys : run s (xs ++ ys) = run (run s xs) ys.
Proof. apply foldl_app. Qed.

(** A response without end-of-stream: its chunk is kept and the next one is
    requested. *)
Lemma answer_read_more h p bufs f d s :
  inflight s = [AtRead h p bufs f] →
  eof_of d = false →
  answer (Response d) s =
  set_inflight [AtRead h p (bufs ++ [dict_get d "data" (VStr "")]) f]
    (set_issued (issued s ++ [io_read h]) s).
Proof.
  intros Hq He. unfold answer. rewrite Hq. cbn.
  unfold eof_of in He. rewrite He. reflexivity.
Qed.

(** The response with end-of-stream: its chunk is kept and the handle is
    closed. *)
Lemma answer_read_eof h p bufs f d s :
  inflight s = [AtRead h p bufs f] →
  eof_of d = true →
  answer (Response d) s =
  set_inflight [AtClose h p (bufs ++ [dict_get d "data" (VStr "")]) f]
    (set_issued (issued s ++ [io_close h]) s).
Proof.
  intros Hq He. unfold answer. rewrite Hq. cbn.
  unfold eof_of in He. rewrite He. reflexivity.
Qed.

(** A failed read ends the task at once. *)
Lemma answer_read_failure h p bufs f e s :
  inflight s = [AtRead h p bufs f] →
  answer (Failure e) s = set_inflight [] s.
Proof. intros Hq. unfold answer. rewrite Hq. reflexivity. Qed.

(** The loop, as long as the responses do not report end-of-stream. *)
Lemma run_reads pre : ∀ s h p bufs f,
  inflight s = [AtRead h p bufs f] →
  Forall (λ d, eof_of d = false) pre →
  run s (responses pre) =
  set_inflight [AtRead h p (bufs ++ map (λ d, dict_get d "data" (VStr "")) pre) f]
    (set_issued (issued s ++ replicate (length pre) (io_read h)) s).
Proof.
  induction pre as [| d pre IH]; intros s h p bufs f Hq Hpre.
  - cbn. rewrite !app_nil_r. destruct s; cbn in *; subst; reflexivity.
  - inversion Hpre as [| ? ? Hd Hrest]; subst.
    cbn [responses map run foldl step].
    fold (run (answer (Response d) s) (responses pre)).
    rewrite (answer_read_more h p bufs f d s Hq Hd).
    rewrite (IH _ h p (bufs ++ [dict_get d "data" (VStr "")]) f) by done.
    cbn. rewrite <- !app_assoc. reflexivity.
Qed.

Lemma data_ok_get d : data_ok d → dict_get d "data" (VStr "") = VStr (chunk_of d).
Proof.
  unfold data_ok, dict_get, chunk_of. intros H.
  destruct (d !! "data") as [v |]; [| reflexivity].
  destruct (H v eq_refl) as [str ->]. reflexivity.
Qed.

Lemma all_str_chunks ds :
  Forall data_ok ds →
  all_str (map (λ d, dict_get d "data" (VStr "")) ds) = Some (map chunk_of ds).
Proof.
  induction 1 as [| d ds Hd _ IH]; [reflexivity |].
  cbn. rewrite (data_ok_get d Hd), IH. reflexivity.
Qed.

(** A drain served [pre], then [last] with end-of-stream, has issued one
    read per response and then the close, on which it is suspended. *)
Lemma drain_to_close s h p f pre last :
  inflight s = [] →
  Forall (λ d, eof_of d = false) pre →
  eof_of last = true →
  run (_readStream h p f s) (responses (pre ++ [last])) =
  set_inflight [AtClose h p (map (λ d, dict_get d "data" (VStr "")) (pre ++ [last])) f]
    (set_issued (issued s ++ replicate (S (length pre)) (io_read h) ++ [io_close h]) s).
Proof.
  intros Hq Hpre Hlast.
  unfold responses. rewrite map_app, run_app. fold (responses pre).
  rewrite (run_reads pre _ h p [] f) by (cbn; rewrite ?Hq; done).
  match goal with |- run ?s1 _ = ?rhs =>
    change (answer (Response last) s1 = rhs);
    rewrite (answer_read_eof h p _ f last s1 eq_refl Hlast)
  end.
  cbn. change (Send "IO.read" (Some {["handle" := h]})) with (io_read h).
  rewrite <- !app_assoc, map_app. reflexivity.
Qed.

(** A drain served a failure after [pre] ends there: nothing more is
    issued and its done-callback resolves nothing. *)
Lemma drain_read_failure s h p f pre e :
  inflight s = [] →
  Forall (λ d, eof_of d = false) pre →
  run (_readStream h p f s) (responses pre ++ [Reply (Failure e)]) =
  set_issued (issued s ++ replicate (S (length pre)) (io_read h)) s.
Proof.
  intros Hq Hpre. rewrite run_app.
  rewrite (run_reads pre _ h p [] f) by (cbn; rewrite ?Hq; done).
  match goal with |- run ?s1 _ = ?rhs =>
    change (answer (Failure e) s1 = rhs);
    rewrite (answer_read_failure h p _ f e s1 eq_refl)
  end.
  cbn. change (Send "IO.read" (Some {["handle" := h]})) with (io_read h).
  rewrite <- !app_assoc. cbn [app]. destruct s; cbn in *; subst; reflexivity.
Qed.

(** The state in which a drain that was served [pre], then [last] with
    end-of-stream, then an answer to [IO.close], leaves the system: the task
    has returned the concatenation to its done-callback. *)
Lemma drain_complete s h p f pre last closed :
  inflight s = [] →
  Forall (λ d, eof_of d = false) pre →
  eof_of last = true →
  Forall data_ok (pre ++ [last]) →
  can_persist p s →
  run (_readStream h p f s) (responses (pre ++ [last]) ++ [Reply (Response closed)]) =
  task_done f (Returned (VStr (str_join "" (map chunk_of (pre ++ [last])))))
    ((if String.eqb p "" then id
      else set_files (<[p := File (str_join "" (map chunk_of (pre ++ [last])))]> (files s)))
       (set_issued (issued s ++ replicate (S (length pre)) (io_read h) ++ [io_close h]) s)).
Proof.
  intros Hq Hpre Hlast Hdata Hw.
  rewrite run_app, (drain_to_close s h p f pre last Hq Hpre Hlast).
  cbn [run foldl step]. unfold answer. cbn.
  unfold join_bufs. rewrite (all_str_chunks _ Hdata). cbn.
  rewrite persist_ok by exact Hw.
  destruct s; cbn in *; subst. destruct (String.eqb p ""); reflexivity.
Qed.

Lemma futures_task_done_fresh f v s :
  futures s !! f = None →
  futures (task_done f (Returned v) s) !! f = Some (Resolved v).
Proof. intros H. cbn. unfold set_result. rewrite H. cbn. apply lookup_insert_eq. Qed.

Lemma inflight_set_result f v s : inflight (set_result f v s) = inflight s.
Proof. unfold set_result. destruct (futures s !! f) as [[|]|]; reflexivity. Qed.

Lemma files_set_result f v s : files (set_result f v s) = files s.
Proof. unfold set_result. destruct (futures s !! f) as [[|]|]; reflexivity. Qed.

Lemma issued_resume_close h p bufs f r s :
  issued (resume (AtClose h p bufs f) r s) = issued s.
Proof.
  destruct r as [d | e]; cbn; [| reflexivity].
  destruct (join_bufs bufs) as [result |]; cbn; [| reflexivity].
  destruct (persist p result s) as [s' |] eqn:Hp; cbn; [| reflexivity].
  rewrite issued_set_result. apply persist_frame in Hp as (_ & -> & _). reflexivity.
Qed.

Lemma inflight_resume_close h p bufs f r s :
  inflight (resume (AtClose h p bufs f) r s) = inflight s.
Proof.
  destruct r as [d | e]; cbn; [| reflexivity].
  destruct (join_bufs bufs) as [result |]; cbn; [| reflexivity].
  destruct (persist p result s) as [s' |] eqn:Hp; cbn; [| reflexivity].
  rewrite inflight_set_result. apply persist_frame in Hp as (_ & _ & _ & -> & _).
  reflexivity.
Qed.

(** C2: served a finite sequence of [IO.read] responses of which [last] is
    the first to report end-of-stream, the drain loop issues one read per
    response up to and including [last] and no more, closes the handle, and,
    unless writing the file at [path] fails, returns the concatenation of
    all the chunks in the order received, empty chunks included; a response
    without ['eof'] continues the loop and a response without ['data']
    contributes the empty string.  The value returned is the one the task's
    done-callback stores in its future. *)
Theorem readStream_drains_until_eof s handle path fut pre last closed :
  inflight s = [] →
  futures s !! fut = None →
  Forall (λ d, eof_of d = false) pre →
  eof_of last = true →
  Forall data_ok (pre ++ [last]) →
  let s' := run (_readStream handle path fut s)
                (responses (pre ++ [last]) ++ [Reply (Response closed)]) in
  let result := str_join "" (map chunk_of (pre ++ [last])) in
  issued s' = issued s ++ replicate (length pre + 1) (io_read handle) ++ [io_close handle]
  ∧ inflight s' = []
  ∧ (can_persist path s →
     futures s' !! fut = Some (Resolved (VStr result))
     ∧ files s' = (if String.eqb path "" then files s
                   else <[path := File result]> (files s)))
  ∧ (∀ d : dict, d !! "eof" = None → eof_of d = false)
  ∧ (∀ d : dict, d !! "data" = None → chunk_of d = "").
Proof.
  intros Hq Hf Hpre Hlast Hdata s' result. subst s' result.
  replace (length pre + 1) with (S (length pre)) by lia.
  split; [| split; [| split; [| split]]].
  - rewrite run_app, (drain_to_close s handle path fut pre last Hq Hpre Hlast).
    cbn [run foldl step]. unfold answer. cbn [inflight set_inflight].
    rewrite issued_resume_close. reflexivity.
  - rewrite run_app, (drain_to_close s handle path fut pre last Hq Hpre Hlast).
    cbn [run foldl step]. unfold answer. cbn [inflight set_inflight].
    rewrite inflight_resume_close. reflexivity.
  - intros Hw.
    rewrite (drain_complete s handle path fut pre last closed Hq Hpre Hlast Hdata Hw).
    split.
    + apply futures_task_done_fresh. destruct (String.eqb path ""); exact Hf.
    + cbn [task_done]. rewrite files_set_result.
      destruct (String.eqb path ""); reflexivity.
  - intros d Hd. unfold eof_of, dict_get. rewrite Hd. reflexivity.
  - intros d Hd. unfold chunk_of. rewrite Hd. reflexivity.
Qed.

Lemma readStream_drains_until_eof_witness :
  futures
    (run (_readStream (VStr "h1") "" 0 (init (λ _, [])))
         (responses ([ <["data" := VStr "ab"]> (<["eof" := VBool false]> ∅);
                       <["data" := VStr ""]> (<["eof" := VBool false]> ∅) ]
                     ++ [ <["data" := VStr "cd"]> (<["eof" := VBool true]> ∅) ])
          ++ [Reply (Response ∅)])) !! 0
  = Some (Resolved (VStr "abcd")).
Proof.
  refine (proj1 (proj1 (proj2 (proj2
    (readStream_drains_until_eof (init (λ _, [])) (VStr "h1") "" 0
       [ <["data" := VStr "ab"]> (<["eof" := VBool false]> ∅);
         <["data" := VStr ""]> (<["eof" := VBool false]> ∅) ]
       (<["data" := VStr "cd"]> (<["eof" := VBool true]> ∅)) ∅
       eq_refl eq_refl _ eq_refl _))) (or_introl eq_refl))).
  - repeat constructor.
  - repeat constructor; intros v Hv; vm_compute in Hv;
      injection Hv as <-; eexists; reflexivity.
Defined.

(** ** Release of the stream handle *)

Lemma times_app c l1 l2 : times c (l1 ++ l2) = times c l1 + times c l2.
Proof. unfold times. rewrite filter_app, length_app. reflexivity. Qed.

Lemma times_replicate_ne c c' n : c' ≠ c → times c (replicate n c') = 0.
Proof.
  intros Hne. unfold times. induction n as [| n IH]; [reflexivity |].
  cbn [replicate]. rewrite filter_cons_False by exact Hne. exact IH.
Qed.

Lemma times_singleton c : times c [c] = 1.
Proof. unfold times. rewrite filter_cons_True by reflexivity. reflexivity. Qed.

(** C3, as stated, fails: a drain whose second [IO.read] raises ends (no
    command of it is left unanswered, and no later stimulus can resume it)
    without having issued any [IO.close] for its handle. *)
Lemma readStream_read_failure_skips_close :
  let s' := run (_readStream (VStr "h1") "" 0 (init (λ _, [])))
                [ Reply (Response (<["data" := VStr "ab"]> (<["eof" := VBool false]> ∅)));
                  Reply (Failure (SessionError "Target closed")) ] in
  issued s' = [io_read (VStr "h1"); io_read (VStr "h1")]
  ∧ inflight s' = []
  ∧ listeners s' = []
  ∧ times (io_close (VStr "h1")) (issued s') ≠ 1.
Proof. vm_compute. repeat split. discriminate. Qed.

(** C3, amended: [IO.close] is issued for the handle exactly once on every
    exit path that follows the end of the loop (whatever the session answers
    to the close, and whatever the chunks are); on the exit path where an
    [IO.read] raises, the drain ends without issuing [IO.close]. *)
Theorem readStream_closes_after_loop s handle path fut pre :
  inflight s = [] →
  Forall (λ d, eof_of d = false) pre →
  (∀ last r,
     eof_of last = true →
     let s' := run (_readStream handle path fut s)
                   (responses (pre ++ [last]) ++ [Reply r]) in
     times (io_close handle) (issued s') = times (io_close handle) (issued s) + 1
     ∧ inflight s' = [])
  ∧ (∀ e,
     let s' := run (_readStream handle path fut s)
                   (responses pre ++ [Reply (Failure e)]) in
     times (io_close handle) (issued s') = times (io_close handle) (issued s)
     ∧ inflight s' = []
     ∧ futures s' = futures s
     ∧ outcomes s' = outcomes s).
Proof.
  intros Hq Hpre. split.
  - intros last r Hlast s'. subst s'.
    rewrite run_app, (drain_to_close s handle path fut pre last Hq Hpre Hlast).
    cbn [run foldl step]. unfold answer. cbn [inflight set_inflight].
    rewrite issued_resume_close, inflight_resume_close.
    cbn [issued inflight set_issued set_inflight]. split; [| reflexivity].
    rewrite !times_app, times_replicate_ne by discriminate.
    rewrite times_singleton. reflexivity.
  - intros e s'. subst s'.
    rewrite (drain_read_failure s handle path fut pre e Hq Hpre).
    cbn [issued inflight futures outcomes set_issued].
    repeat split; [| exact Hq].
    rewrite times_app, times_replicate_ne by discriminate. lia.
Qed.

Lemma readStream_closes_after_loop_witness :
  times (io_close (VStr "h1"))
    (issued (run (_readStream (VStr "h1") "" 0 (init (λ _, [])))
                 (responses ([ <["data" := VStr "ab"]> ∅ ]
                             ++ [ <["eof" := VBool true]> ∅ ])
                  ++ [Reply (Response ∅)])))
  = times (io_close (VStr "h1")) (issued (init (λ _, []))) + 1.
Proof.
  refine (proj1 (proj1
    (readStream_closes_after_loop (init (λ _, [])) (VStr "h1") "" 0
       [ <["data" := VStr "ab"]> ∅ ] eq_refl _)
    (<["eof" := VBool true]> ∅) (Response ∅) eq_refl)).
  repeat constructor.
Defined.

(** ** Calls that can no longer raise *)

(** [start] and [stop] raise only out of their [await] of a command.  A
    call that is past it keeps that property whatever happens next. *)

Lemma outcomes_set_result_not_raised f v c s :
  (∀ e, outcomes s !! c ≠ Some (Raised e)) →
  ∀ e, outcomes (set_result f v s) !! c ≠ Some (Raised e).
Proof.
  intros H e. unfold set_result. destruct (futures s !! f) as [[|]|]; cbn; try apply H.
  destruct (decide (f = c)) as [-> | Hne].
  - rewrite lookup_insert_eq. discriminate.
  - rewrite lookup_insert_ne by exact Hne. apply H.
Qed.

Lemma next_set_result f v s : next (set_result f v s) = next s.
Proof. unfold set_result. destruct (futures s !! f) as [[|]|]; reflexivity. Qed.

Lemma past_its_send_resume c k r s :
  pending_call k ≠ Some c →
  past_its_send c s →
  past_its_send c (resume k r s).
Proof.
  intros Hk (Hlt & Hq & Ho).
  destruct k as [c' | c' | h p bufs f | h p bufs f]; cbn in Hk |- *.
  - assert (c' ≠ c) by congruence.
    destruct r; (split; [exact Hlt | split; [exact Hq |]]); intros e0; cbn;
      rewrite lookup_insert_ne by done; apply Ho.
  - assert (c' ≠ c) by congruence.
    destruct r as [d | e']; cbn.
    + destruct (futures s !! c') as [[|]|]; (split; [exact Hlt | split; [exact Hq |]]);
        intros e; cbn; rewrite ?lookup_insert_ne by done; apply Ho.
    + split; [exact Hlt | split; [exact Hq |]]. intros e; cbn.
      rewrite lookup_insert_ne by done. apply Ho.
  - destruct r as [d | e']; cbn; [| split; [exact Hlt | split; [exact Hq | exact Ho]]].
    destruct (truthy _); (split; [exact Hlt | split; [| exact Ho]]); cbn;
      apply Forall_app; (split; [exact Hq |]); repeat constructor; discriminate.
  - destruct r as [d | e']; cbn; [| split; [exact Hlt | split; [exact Hq | exact Ho]]].
    destruct (join_bufs bufs) as [result |]; cbn;
      [| split; [exact Hlt | split; [exact Hq | exact Ho]]].
    destruct (persist p result s) as [s' |] eqn:Hp; cbn;
      [| split; [exact Hlt | split; [exact Hq | exact Ho]]].
    apply persist_frame in Hp as (_ & _ & _ & Hi & _ & Hout & Hn).
    split; [| split].
    + rewrite next_set_result, Hn. exact Hlt.
    + rewrite inflight_set_result, Hi. exact Hq.
    + apply outcomes_set_result_not_raised. rewrite Hout. exact Ho.
Qed.

Lemma past_its_send_listeners c event (fired : list (string * nat)) s :
  past_its_send c s →
  past_its_send c (foldl (λ s l, listener l.2 event s) s fired).
Proof.
  revert s. induction fired as [| l fired IH]; intros s H; cbn; [exact H |].
  apply IH. destruct H as (Hlt & Hq & Ho).
  split; [exact Hlt | split; [| exact Ho]]. cbn.
  apply Forall_app. split; [exact Hq |]. repeat constructor. discriminate.
Qed.

Lemma start_frame path sc cats s :
  next (start path sc cats s) = S (next s)
  ∧ inflight (start path sc cats s) = inflight s ++ [AtStartSend (next s)]
  ∧ outcomes (start path sc cats s) = outcomes s.
Proof. unfold start, fresh. destruct sc, cats; cbn; repeat split. Qed.

Lemma past_its_send_step c s x : past_its_send c s → past_its_send c (step s x).
Proof.
  intros H. destruct x as [path sc cats | | r | name event]; cbn [step].
  - destruct H as (Hlt & Hq & Ho).
    destruct (start_frame path sc cats s) as (Hn & Hi & Hout).
    unfold past_its_send. rewrite Hn, Hi, Hout.
    split; [lia | split; [| exact Ho]].
    apply Forall_app. split; [exact Hq |]. repeat constructor. cbn. intros [=]. lia.
  - destruct H as (Hlt & Hq & Ho).
    split; [cbn; lia | split; [| exact Ho]]. cbn.
    apply Forall_app. split; [exact Hq |]. repeat constructor. cbn. intros [=]. lia.
  - unfold answer. destruct (inflight s) as [| k q] eqn:E; [exact H |].
    destruct H as (Hlt & Hq & Ho). rewrite E in Hq. inversion Hq as [| ? ? Hk Hq']; subst.
    apply past_its_send_resume; [exact Hk |].
    split; [exact Hlt | split; [exact Hq' | exact Ho]].
  - unfold emit. apply past_its_send_listeners.
    destruct H as (Hlt & Hq & Ho). split; [exact Hlt | split; [exact Hq | exact Ho]].
Qed.

Lemma past_its_send_run c xs : ∀ s, past_its_send c s → past_its_send c (run s xs).
Proof.
  induction xs as [| x xs IH]; intros s H; cbn; [exact H |].
  apply IH, past_its_send_step, H.
Qed.

(** ** A completion signal without a stream handle *)

(** [stop], the answer to ['Tracing.end'] and the completion signal, in a
    system where nothing else is going on: [stop] is suspended on its
    [contentFuture] and the drain of [event.get('stream')] has started. *)
Lemma stop_then_complete s ended event :
  inflight s = [] →
  listeners s = [] →
  futures s !! next s = None →
  run s [CallStop; Reply (Response ended); Emit "Tracing.tracingComplete" event] =
  _readStream (dict_get event "stream" VNone) (_path s) (next s)
    (mkState false (_path s) (heap s) (files s)
       (issued s ++ [Once "Tracing.tracingComplete"; Send "Tracing.end" None])
       [] [] (<[next s := Awaited]> (futures s)) (outcomes s) (S (next s))).
Proof.
  intros Hq Hl Hf. cbn [run foldl step].
  unfold stop, fresh, answer. cbn. rewrite Hq. cbn. rewrite Hf.
  unfold emit. cbn. rewrite Hl. cbn [app].
  rewrite (filter_cons_False (λ l : string * nat, l.1 ≠ "Tracing.tracingComplete"))
    by (cbn; auto).
  rewrite filter_cons_True by reflexivity.
  unfold listener, _readStream, read_next, client_send, client_once. cbn.
  rewrite <- !app_assoc. reflexivity.
Qed.

(** The completion signal when one listener is registered, for it. *)
Lemma emit_single event fut s :
  listeners s = [("Tracing.tracingComplete", fut)] →
  emit "Tracing.tracingComplete" event s =
  _readStream (dict_get event "stream" VNone) (_path s) fut (set_listeners [] s).
Proof.
  intros Hl. unfold emit. rewrite Hl.
  rewrite (filter_cons_False (λ l : string * nat, l.1 ≠ "Tracing.tracingComplete"))
    by (cbn; auto).
  rewrite filter_cons_True by reflexivity. reflexivity.
Qed.

Lemma stop_state s :
  stop s =
  mkState (_recording s) (_path s) (heap s) (files s)
    (issued s ++ [Once "Tracing.tracingComplete"; Send "Tracing.end" None])
    (listeners s ++ [("Tracing.tracingComplete", next s)])
    (inflight s ++ [AtStopSend (next s)])
    (futures s) (outcomes s) (S (next s)).
Proof.
  unfold stop, fresh, client_send, client_once.
  cbn [_recording _path heap files issued listeners inflight futures outcomes next
       set_next set_issued set_listeners set_inflight].
  rewrite <- app_assoc. reflexivity.
Qed.

Lemma answer_stop_waits r p h f i l c q fu o n d :
  fu !! c = None →
  answer (Response d) (mkState r p h f i l (AtStopSend c :: q) fu o n) =
  mkState false p h f i l q (<[c := Awaited]> fu) o n.
Proof.
  intros Hf. unfold answer.
  cbn [inflight resume resume_stop futures set_inflight set_recording].
  rewrite Hf. reflexivity.
Qed.

(** The completion signal may come before the answer to ['Tracing.end']:
    the system ends in the same state. *)
Lemma signal_before_answer s ended event :
  inflight s = [] →
  listeners s = [] →
  futures s !! next s = None →
  run s [CallStop; Emit "Tracing.tracingComplete" event; Reply (Response ended)] =
  run s [CallStop; Reply (Response ended); Emit "Tracing.tracingComplete" event].
Proof.
  intros Hq Hl Hf. rewrite (stop_then_complete s ended event Hq Hl Hf).
  change (run s [CallStop; Emit "Tracing.tracingComplete" event; Reply (Response ended)])
    with (answer (Response ended) (emit "Tracing.tracingComplete" event (stop s))).
  rewrite stop_state, Hq, Hl. cbn [app].
  rewrite (emit_single event (next s)) by reflexivity.
  unfold _readStream, read_next, client_send, set_inflight, set_issued, set_listeners.
  cbn [_recording _path heap files issued listeners inflight futures outcomes next app].
  rewrite answer_stop_waits by exact Hf.
  reflexivity.
Qed.

(** C6, as stated, fails.  The completion signal arrives without a
    ['stream'] field; the drain runs with the handle [None].  When the
    session serves that handle, [stop] returns the data and no error; when
    the session rejects the read, the failure stays in the task: [stop] has
    not ended, nothing is left that could end it, and no error has reached
    its caller. *)
Lemma stop_missing_stream_no_error :
  let served :=
    run (init (λ _, []))
        [ CallStop; Reply (Response ∅); Emit "Tracing.tracingComplete" ∅;
          Reply (Response (<["data" := VStr "X"]> (<["eof" := VBool true]> ∅)));
          Reply (Response ∅) ] in
  let rejected :=
    run (init (λ _, []))
        [ CallStop; Reply (Response ∅); Emit "Tracing.tracingComplete" ∅;
          Reply (Failure (SessionError "Invalid parameters")) ] in
  (issued served =
     [ Once "Tracing.tracingComplete"; Send "Tracing.end" None;
       io_read VNone; io_close VNone ]
   ∧ outcomes served !! 0 = Some (Returned (VStr "X")))
  ∧ (issued rejected =
       [ Once "Tracing.tracingComplete"; Send "Tracing.end" None; io_read VNone ]
     ∧ outcomes rejected !! 0 = None
     ∧ inflight rejected = []
     ∧ listeners rejected = []).
Proof. vm_compute. repeat split. Qed.

Lemma at_its_send_listeners c event (fired : list (string * nat)) : ∀ s,
  at_its_send c s →
  at_its_send c (foldl (λ s l, listener l.2 event s) s fired).
Proof.
  induction fired as [| l fired IH]; intros s H; cbn [foldl]; [exact H |].
  apply IH. destruct H as (Hlt & (q & Hq & Hrest) & Ho).
  split; [exact Hlt | split; [| exact Ho]].
  exists (q ++ [AtRead (dict_get event "stream" VNone) (_path s) [] l.2]).
  cbn. rewrite Hq. split; [reflexivity |].
  apply Forall_app. split; [exact Hrest |]. repeat constructor. discriminate.
Qed.

(** While [stop] is suspended on its ['Tracing.end'], calls and events leave
    it there. *)
Lemma at_its_send_step c s x :
  at_its_send c s →
  (∀ r, x ≠ Reply r) →
  at_its_send c (step s x).
Proof.
  intros H Hx. destruct x as [path sc cats | | r | name event]; cbn [step].
  - destruct H as (Hlt & (q & Hq & Hrest) & Ho).
    destruct (start_frame path sc cats s) as (Hn & Hi & Hout).
    unfold at_its_send. rewrite Hn, Hi, Hout, Hq.
    split; [lia | split; [| exact Ho]].
    exists (q ++ [AtStartSend (next s)]). split; [reflexivity |].
    apply Forall_app. split; [exact Hrest |]. repeat constructor. cbn. intros [=]. lia.
  - destruct H as (Hlt & (q & Hq & Hrest) & Ho).
    split; [cbn; lia | split; [| exact Ho]].
    exists (q ++ [AtStopSend (next s)]). cbn. rewrite Hq. split; [reflexivity |].
    apply Forall_app. split; [exact Hrest |]. repeat constructor. cbn. intros [=]. lia.
  - destruct (Hx r eq_refl).
  - unfold emit.
    apply (at_its_send_listeners c event _
             (set_listeners (filter (λ l : string * nat, l.1 ≠ name) (listeners s)) s)).
    exact H.
Qed.

(** Once its ['Tracing.end'] is answered with a response, [stop] is past
    its send. *)
Lemma at_its_send_answered c s d :
  at_its_send c s → past_its_send c (step s (Reply (Response d))).
Proof.
  intros (Hlt & (q & Hq & Hrest) & Ho). cbn [step]. unfold answer. rewrite Hq.
  cbn [resume resume_stop]. cbn [futures set_inflight set_recording].
  destruct (futures s !! c) as [[| v] |]; (split; [exact Hlt | split; [exact Hrest |]]);
    try exact Ho.
  intros e. cbn. rewrite lookup_insert_eq. discriminate.
Qed.

(** [stop] raises only out of its own ['Tracing.end']: if the answer to it
    is not a failure, [stop] never ends with an error. *)
Lemma stop_raises_only_at_its_send c xs : ∀ s,
  at_its_send c s →
  (∀ e, first_reply xs ≠ Some (Failure e)) →
  ∀ e, outcomes (run s xs) !! c ≠ Some (Raised e).
Proof.
  induction xs as [| x xs IH]; intros s H Hxs.
  - destruct H as (_ & _ & Ho). exact Ho.
  - cbn [run foldl]. fold (run (step s x) xs).
    destruct x as [path sc cats | | r | name event].
    + apply IH; [apply at_its_send_step; [exact H | discriminate] | exact Hxs].
    + apply IH; [apply at_its_send_step; [exact H | discriminate] | exact Hxs].
    + destruct r as [d | e'].
      * apply past_its_send_run, at_its_send_answered, H.
      * destruct (Hxs e' eq_refl).
    + apply IH; [apply at_its_send_step; [exact H | discriminate] | exact Hxs].
Qed.

(** C6, amended: a completion signal without a ['stream'] field raises no
    error; the handle is defaulted to [None], the drain reads and closes the
    handle [None], and when the session serves those requests, and nothing
    keeps the file at [_path] from being written, [stop] returns the drained
    data to its caller; the outcome is the same when the signal comes before
    the answer to ['Tracing.end'].  Whenever the signal comes, [stop] ends
    with an error only if that command of its own fails: the first answer of
    the session after the call, which is the answer to ['Tracing.end'], is
    then a failure. *)
Theorem stop_missing_stream_defaults s ended event pre last closed :
  event !! "stream" = None →
  inflight s = [] →
  listeners s = [] →
  futures s !! next s = None →
  outcomes s !! next s = None →
  Forall (λ d, eof_of d = false) pre →
  eof_of last = true →
  Forall data_ok (pre ++ [last]) →
  let s' := run s ([ CallStop; Reply (Response ended);
                     Emit "Tracing.tracingComplete" event ]
                   ++ responses (pre ++ [last]) ++ [Reply (Response closed)]) in
  (issued s' =
     issued s ++ [Once "Tracing.tracingComplete"; Send "Tracing.end" None]
     ++ replicate (length pre + 1) (io_read VNone) ++ [io_close VNone]
   ∧ (can_persist (_path s) s →
      outcomes s' !! next s =
      Some (Returned (VStr (str_join "" (map chunk_of (pre ++ [last]))))))
   ∧ run s ([ CallStop; Emit "Tracing.tracingComplete" event;
              Reply (Response ended) ]
            ++ responses (pre ++ [last]) ++ [Reply (Response closed)]) = s')
  ∧ ∀ xs ys e,
      (∀ e', first_reply (xs ++ [Emit "Tracing.tracingComplete" event] ++ ys)
             ≠ Some (Failure e')) →
      outcomes (run s ([CallStop] ++ xs
                       ++ [Emit "Tracing.tracingComplete" event] ++ ys)) !! next s
      ≠ Some (Raised e).
Proof.
  intros Hev Hq Hl Hf Ho Hpre Hlast Hdata s'. subst s'. split.
  2:{ intros xs ys e Hfirst. revert e.
      change (run s ([CallStop] ++ xs ++ [Emit "Tracing.tracingComplete" event] ++ ys))
        with (run (stop s) (xs ++ [Emit "Tracing.tracingComplete" event] ++ ys)).
      apply stop_raises_only_at_its_send; [| exact Hfirst].
      split; [cbn; lia | split].
      - exists []. cbn. rewrite Hq. split; [reflexivity | constructor].
      - intros e. cbn. rewrite Ho. discriminate. }
  assert (Hsame :
    run s ([ CallStop; Emit "Tracing.tracingComplete" event; Reply (Response ended) ]
           ++ responses (pre ++ [last]) ++ [Reply (Response closed)]) =
    run s ([ CallStop; Reply (Response ended); Emit "Tracing.tracingComplete" event ]
           ++ responses (pre ++ [last]) ++ [Reply (Response closed)])).
  { rewrite !(run_app s), (signal_before_answer s ended event Hq Hl Hf). reflexivity. }
  split; [| split; [| exact Hsame]]; clear Hsame;
    rewrite run_app, (stop_then_complete s ended event Hq Hl Hf);
    unfold dict_get; rewrite Hev; cbn [default];
    replace (length pre + 1) with (S (length pre)) by lia.
  - rewrite run_app, drain_to_close by done.
    cbn [run foldl step]. unfold answer. cbn [inflight set_inflight].
    rewrite issued_resume_close. cbn. rewrite <- app_assoc. reflexivity.
  - intros Hw. rewrite drain_complete by done.
    cbn [task_done]. unfold set_result.
    destruct (String.eqb (_path s) ""); cbn; rewrite lookup_insert_eq; cbn;
      apply lookup_insert_eq.
Qed.

Lemma stop_missing_stream_defaults_witness :
  outcomes
    (run (init (λ _, []))
         ([ CallStop; Reply (Response ∅); Emit "Tracing.tracingComplete" ∅ ]
          ++ responses ([ <["data" := VStr "X"]> ∅ ]
                        ++ [ <["data" := VStr "Y"]> (<["eof" := VBool true]> ∅) ])
          ++ [Reply (Response ∅)])) !! 0
  = Some (Returned (VStr "XY"))
  ∧ ∀ e,
      outcomes
        (run (init (λ _, []))
             ([CallStop] ++ [] ++ [Emit "Tracing.tracingComplete" ∅]
              ++ [ Reply (Response ∅);
                   Reply (Failure (SessionError "Invalid parameters")) ])) !! 0
      ≠ Some (Raised e).
Proof.
  pose proof (stop_missing_stream_defaults (init (λ _, [])) ∅ ∅
       [ <["data" := VStr "X"]> ∅ ]
       (<["data" := VStr "Y"]> (<["eof" := VBool true]> ∅)) ∅
       eq_refl eq_refl eq_refl eq_refl eq_refl) as H.
  assert (H1 : Forall (λ d, eof_of d = false) [ (<["data" := VStr "X"]> ∅ : dict) ])
    by (repeat constructor).
  assert (H2 : Forall data_ok
                 ([ (<["data" := VStr "X"]> ∅ : dict) ]
                  ++ [ <["data" := VStr "Y"]> (<["eof" := VBool true]> ∅) ])).
  { repeat constructor; intros v Hv; vm_compute in Hv;
      injection Hv as <-; eexists; reflexivity. }
  destruct (H H1 eq_refl H2) as [(_ & Hret & _) Hnever]. split.
  - exact (Hret (or_introl eq_refl)).
  - intros e. apply (Hnever [] [ Reply (Response ∅);
                                 Reply (Failure (SessionError "Invalid parameters")) ] e).
    intros e'. cbn. discriminate.
Defined.

(** ** The [_recording] flag *)

Lemma recording_start path screenshots categories s :
  _recording (start path screenshots categories s) = true.
Proof.
  unfold start, fresh. destruct screenshots; cbn; [| reflexivity].
  destruct (resolve_categories _ _); reflexivity.
Qed.

Lemma recording_listeners_fold event (fired : list (string * nat)) s :
  _recording (foldl (λ s l, listener l.2 event s) s fired) = _recording s.
Proof.
  revert s. induction fired as [| l fired IH]; intros s; cbn; [reflexivity |].
  rewrite IH. reflexivity.
Qed.

Lemma recording_emit name event s : _recording (emit name event s) = _recording s.
Proof. unfold emit. rewrite recording_listeners_fold. reflexivity. Qed.

Lemma recording_resume_other k r s :
  (∀ c, k ≠ AtStopSend c) →
  _recording (resume k r s) = _recording s.
Proof.
  intros Hk. destruct k as [c | c | h p bufs f | h p bufs f]; cbn.
  - destruct r; reflexivity.
  - destruct (Hk c eq_refl).
  - destruct r as [d | e]; cbn; [| reflexivity]. destruct (truthy _); reflexivity.
  - destruct r as [d | e]; cbn; [| reflexivity].
    destruct (join_bufs bufs) as [result |]; cbn; [| reflexivity].
    destruct (persist p result s) as [s' |] eqn:Hp; cbn; [| reflexivity].
    rewrite recording_set_result. apply persist_frame in Hp as (-> & _). reflexivity.
Qed.

Lemma recording_resume_stop_ok c d s : _recording (resume (AtStopSend c) (Response d) s) = false.
Proof. cbn. destruct (futures s !! c) as [[|]|]; reflexivity. Qed.

(** C7, as stated, fails on both transitions.  A [start] whose
    ['Tracing.start'] command fails has raised, and the flag is set; a [stop]
    whose ['Tracing.end'] command fails has ended, with that error, and the
    flag is still set. *)
Lemma recording_ignores_failures :
  let failed_start :=
    run (init (λ _, []))
        [ CallStart "" false ANone; Reply (Failure (SessionError "Target closed")) ] in
  let failed_stop :=
    run (init (λ _, []))
        [ CallStart "" false ANone; Reply (Response ∅);
          CallStop; Reply (Failure (SessionError "Target closed")) ] in
  (_recording (init (λ _, [])) = false
   ∧ outcomes failed_start !! 0 = Some (Raised (SessionError "Target closed"))
   ∧ _recording failed_start = true)
  ∧ (outcomes failed_stop !! 1 = Some (Raised (SessionError "Target closed"))
     ∧ _recording failed_stop = true).
Proof. vm_compute. repeat split. Qed.

(** C7, amended: [start] sets the flag, before it sends ['Tracing.start']
    and so whether or not that command then succeeds; [stop] clears it when
    the answer to ['Tracing.end'] arrives, and leaves it as it is when that
    command fails, in which case [stop] ends with the error; nothing else
    changes it: not the call of [stop] itself, not an event, not an answer
    to any other command. *)
Theorem recording_transitions s :
  (∀ path screenshots categories,
     _recording (step s (CallStart path screenshots categories)) = true)
  ∧ (∀ c q d, inflight s = AtStopSend c :: q →
              _recording (step s (Reply (Response d))) = false)
  ∧ (∀ c q e, inflight s = AtStopSend c :: q →
              _recording (step s (Reply (Failure e))) = _recording s
              ∧ outcomes (step s (Reply (Failure e))) !! c = Some (Raised e))
  ∧ (∀ r, (∀ c q, inflight s ≠ AtStopSend c :: q) →
          _recording (step s (Reply r)) = _recording s)
  ∧ _recording (step s CallStop) = _recording s
  ∧ (∀ name event, _recording (step s (Emit name event)) = _recording s).
Proof.
  split; [| split; [| split; [| split; [| split]]]].
  - intros. apply recording_start.
  - intros c q d Hq. cbn. unfold answer. rewrite Hq. apply recording_resume_stop_ok.
  - intros c q e Hq. cbn. unfold answer. rewrite Hq. cbn.
    split; [reflexivity | apply lookup_insert_eq].
  - intros r Hq. cbn. unfold answer. destruct (inflight s) as [| k q] eqn:E; [reflexivity |].
    rewrite recording_resume_other; [reflexivity |].
    intros c ->. exact (Hq c q eq_refl).
  - reflexivity.
  - intros. apply recording_emit.
Qed.

Lemma recording_transitions_witness :
  let s := stop (set_recording true (init (λ _, []))) in
  _recording (step s (Reply (Response ∅))) = false
  ∧ (_recording (step s (Reply (Failure (SessionError "Target closed")))) = _recording s
     ∧ outcomes (step s (Reply (Failure (SessionError "Target closed")))) !! 0
       = Some (Raised (SessionError "Target closed")))
  ∧ _recording (step (init (λ _, [])) (Reply (Response ∅))) = _recording (init (λ _, [])).
Proof.
  split; [| split].
  - exact (proj1 (proj2
      (recording_transitions (stop (set_recording true (init (λ _, []))))))
      0 [] ∅ eq_refl).
  - exact (proj1 (proj2 (proj2
      (recording_transitions (stop (set_recording true (init (λ _, [])))))))
      0 [] (SessionError "Target closed") eq_refl).
  - refine (proj1 (proj2 (proj2 (proj2
      (recording_transitions (init (λ _, []))))))
      (Response ∅) _).
    intros c q Hq. vm_compute in Hq. discriminate Hq.
Defined.

(** ** A second [stop] *)

Lemma stop_set_recording b s : stop (set_recording b s) = set_recording b (stop s).
Proof. reflexivity. Qed.

(** C8, as stated, fails.  After a whole capture ([start], [stop], the
    completion signal and the drain) the flag is back to idle and the first
    [stop] has returned; a second [stop] then arms a second listener and
    sends a second ['Tracing.end'], and it has not failed: it waits for the
    answer, and once answered for a completion signal. *)
Lemma second_stop_triggers_again :
  let idle :=
    run (init (λ _, []))
        [ CallStart "" false ANone; Reply (Response ∅);
          CallStop; Reply (Response ∅);
          Emit "Tracing.tracingComplete" {["stream" := VStr "h1"]};
          Reply (Response (<["data" := VStr "X"]> (<["eof" := VBool true]> ∅)));
          Reply (Response ∅) ] in
  let again := run idle [CallStop] in
  (_recording idle = false
   ∧ outcomes idle !! 1 = Some (Returned (VStr "X"))
   ∧ listeners idle = [])
  ∧ (issued again =
       issued idle ++ [Once "Tracing.tracingComplete"; Send "Tracing.end" None]
     ∧ times (Send "Tracing.end" None) (issued again) = 2
     ∧ listeners again = [("Tracing.tracingComplete", 2)]
     ∧ outcomes again !! 2 = None
     ∧ outcomes (run again [Reply (Response ∅)]) !! 2 = None).
Proof. vm_compute. repeat split. Qed.

(** C8, amended: a call of [stop] made when the flag is already idle is not
    rejected.  [stop] does not look at the flag: it registers one more
    listener and sends one more ['Tracing.end'], ends no call with an error,
    and leaves the system as the same call made while recording would,
    the flag apart. *)
Theorem stop_when_idle_proceeds s :
  _recording s = false →
  issued (stop s) =
    issued s ++ [Once "Tracing.tracingComplete"; Send "Tracing.end" None]
  ∧ listeners (stop s) = listeners s ++ [("Tracing.tracingComplete", next s)]
  ∧ inflight (stop s) = inflight s ++ [AtStopSend (next s)]
  ∧ outcomes (stop s) = outcomes s
  ∧ stop s = set_recording false (stop (set_recording true s)).
Proof.
  intros Hidle. repeat split.
  - apply stop_issued.
  - rewrite stop_set_recording. destruct s; cbn in *; subst; reflexivity.
Qed.

Lemma stop_when_idle_proceeds_witness :
  let idle :=
    run (init (λ _, []))
        [ CallStart "" false ANone; Reply (Response ∅);
          CallStop; Reply (Response ∅);
          Emit "Tracing.tracingComplete" {["stream" := VStr "h1"]};
          Reply (Response (<["data" := VStr "X"]> (<["eof" := VBool true]> ∅)));
          Reply (Response ∅) ] in
  _recording idle = false
  ∧ issued (stop idle) =
    issued idle ++ [Once "Tracing.tracingComplete"; Send "Tracing.end" None].
Proof.
  split; [reflexivity |].
  refine (proj1 (stop_when_idle_proceeds _ _)). reflexivity.
Defined.

(** * Further properties of the module *)

(** ** A whole capture *)

(** [start] once its command has been answered, in a system where nothing
    else is going on. *)
Lemma start_answered path screenshots categories answered s :
  inflight s = [] →
  step (step s (CallStart path screenshots categories)) (Reply (Response answered)) =
  mkState true path (heap (start path screenshots categories s)) (files s)
    (issued (start path screenshots categories s)) (listeners s) []
    (futures s) (<[next s := Returned VNone]> (outcomes s)) (S (next s)).
Proof.
  intros Hq. cbn [step]. unfold answer.
  destruct (start_frame path screenshots categories s) as (Hn & Hi & Ho).
  rewrite Hi, Hq. cbn [app resume resume_start]. unfold finish.
  unfold start, fresh in *. destruct screenshots, categories; cbn in *; reflexivity.
Qed.

(** [stop], the answer to ['Tracing.end'], the completion signal and a drain
    served to its end, in a system where nothing else is going on: the
    final state. *)
Lemma capture_completes s ended event pre last closed :
  inflight s = [] →
  listeners s = [] →
  futures s !! next s = None →
  Forall (λ d, eof_of d = false) pre →
  eof_of last = true →
  Forall data_ok (pre ++ [last]) →
  can_persist (_path s) s →
  run s ([ CallStop; Reply (Response ended); Emit "Tracing.tracingComplete" event ]
         ++ responses (pre ++ [last]) ++ [Reply (Response closed)]) =
  mkState false (_path s) (heap s)
    (if String.eqb (_path s) "" then files s
     else <[_path s := File (str_join "" (map chunk_of (pre ++ [last])))]> (files s))
    (issued s ++ [Once "Tracing.tracingComplete"; Send "Tracing.end" None]
     ++ replicate (S (length pre)) (io_read (dict_get event "stream" VNone))
     ++ [io_close (dict_get event "stream" VNone)])
    [] []
    (<[next s := Resolved (VStr (str_join "" (map chunk_of (pre ++ [last]))))]>
       (<[next s := Awaited]> (futures s)))
    (<[next s := Returned (VStr (str_join "" (map chunk_of (pre ++ [last]))))]>
       (outcomes s))
    (S (next s)).
Proof.
  intros Hq Hl Hf Hpre Hlast Hdata Hw.
  rewrite run_app, (stop_then_complete s ended event Hq Hl Hf).
  rewrite drain_complete by done.
  cbn [task_done]. unfold set_result.
  destruct (String.eqb (_path s) ""); cbn; rewrite lookup_insert_eq; cbn;
    rewrite <- !app_assoc; reflexivity.
Qed.

(** X1: a whole capture in a system where nothing else is going on:
    [start], then [stop], the completion signal, and a drain served up to
    end-of-stream.  [start] returns [None]; [stop] returns the concatenation
    of the chunks; the session has seen the [start] command, the listener,
    ['Tracing.end'], one read per response and one close, in that order;
    the file at [path] holds exactly what [stop] returns when [path] is not
    empty, and no file is written when it is; the flag ends cleared.  This
    is so when nothing keeps the file at [path] from being written. *)
Theorem capture_round_trip s path screenshots categories answered ended event
    pre last closed :
  inflight s = [] →
  listeners s = [] →
  futures s !! S (next s) = None →
  Forall (λ d, eof_of d = false) pre →
  eof_of last = true →
  Forall data_ok (pre ++ [last]) →
  can_persist path s →
  let s' := run s ([ CallStart path screenshots categories; Reply (Response answered);
                     CallStop; Reply (Response ended);
                     Emit "Tracing.tracingComplete" event ]
                   ++ responses (pre ++ [last]) ++ [Reply (Response closed)]) in
  let result := str_join "" (map chunk_of (pre ++ [last])) in
  let handle := dict_get event "stream" VNone in
  issued s' =
    issued (start path screenshots categories s)
    ++ [Once "Tracing.tracingComplete"; Send "Tracing.end" None]
    ++ replicate (length pre + 1) (io_read handle) ++ [io_close handle]
  ∧ outcomes s' !! next s = Some (Returned VNone)
  ∧ outcomes s' !! S (next s) = Some (Returned (VStr result))
  ∧ files s' = (if String.eqb path "" then files s
                else <[path := File result]> (files s))
  ∧ _recording s' = false.
Proof.
  intros Hq Hl Hf Hpre Hlast Hdata Hw s' result handle. subst s' result handle.
  change (run s ([ CallStart path screenshots categories; Reply (Response answered);
                   CallStop; Reply (Response ended);
                   Emit "Tracing.tracingComplete" event ]
                 ++ responses (pre ++ [last]) ++ [Reply (Response closed)]))
    with (run (step (step s (CallStart path screenshots categories))
                    (Reply (Response answered)))
              ([ CallStop; Reply (Response ended);
                 Emit "Tracing.tracingComplete" event ]
               ++ responses (pre ++ [last]) ++ [Reply (Response closed)])).
  rewrite (start_answered path screenshots categories answered s Hq).
  rewrite capture_completes by (cbn; done).
  replace (length pre + 1) with (S (length pre)) by lia. cbn.
  repeat split.
  - rewrite lookup_insert_ne by lia. apply lookup_insert_eq.
  - apply lookup_insert_eq.
Qed.

Lemma capture_round_trip_witness :
  let s' :=
    run (init (λ _, ["cat1"; "cat2"]))
        ([ CallStart "trace.json" false (AList 0); Reply (Response ∅);
           CallStop; Reply (Response ∅);
           Emit "Tracing.tracingComplete" {["stream" := VStr "h1"]} ]
         ++ responses ([ <["data" := VStr "X"]> (<["eof" := VBool false]> ∅) ]
                       ++ [ <["data" := VStr "Y"]> (<["eof" := VBool true]> ∅) ])
         ++ [Reply (Response ∅)]) in
  outcomes s' !! 1 = Some (Returned (VStr "XY"))
  ∧ files s' = <["trace.json" := File "XY"]> ∅.
Proof.
  pose proof (capture_round_trip (init (λ _, ["cat1"; "cat2"])) "trace.json" false
    (AList 0) ∅ ∅ {["stream" := VStr "h1"]}
    [ <["data" := VStr "X"]> (<["eof" := VBool false]> ∅) ]
    (<["data" := VStr "Y"]> (<["eof" := VBool true]> ∅)) ∅
    eq_refl eq_refl eq_refl) as H.
  refine ((λ H', conj (proj1 (proj2 (proj2 H'))) (proj1 (proj2 (proj2 (proj2 H')))))
            (H _ eq_refl _ _)).
  - repeat constructor.
  - repeat constructor; intros v Hv; vm_compute in Hv;
      injection Hv as <-; eexists; reflexivity.
  - right. cbn [files init]. rewrite lookup_empty. discriminate.
Defined.

(** ** Calls that nothing will end *)

Lemma outcomes_set_result_other f v c s :
  f ≠ c → outcomes (set_result f v s) !! c = outcomes s !! c.
Proof.
  intros Hne. unfold set_result. destruct (futures s !! f) as [[|]|]; cbn; try reflexivity.
  apply lookup_insert_ne, Hne.
Qed.

Lemma listeners_set_result f v s : listeners (set_result f v s) = listeners s.
Proof. unfold set_result. destruct (futures s !! f) as [[|]|]; reflexivity. Qed.

Lemma asleep_resume names c k r s :
  ¬ belongs_to c k →
  asleep names c s →
  asleep names c (resume k r s) ∧ outcomes (resume k r s) !! c = outcomes s !! c.
Proof.
  intros Hk (Hlt & Hq & Hl). unfold asleep.
  destruct k as [c' | c' | h p bufs f | h p bufs f]; cbn in Hk |- *.
  - destruct r; cbn; rewrite lookup_insert_ne by done; done.
  - destruct r as [d | e]; cbn.
    + destruct (futures s !! c') as [[|]|]; cbn; rewrite ?lookup_insert_ne by done; done.
    + rewrite lookup_insert_ne by done; done.
  - destruct r as [d | e]; cbn; [| done].
    destruct (truthy _); cbn; (split; [| reflexivity]);
      (split; [exact Hlt | split; [| exact Hl]]);
      (apply Forall_app; split; [exact Hq |]); repeat constructor; exact Hk.
  - destruct r as [d | e]; cbn; [| done].
    destruct (join_bufs bufs) as [result |]; cbn; [| done].
    destruct (persist p result s) as [s' |] eqn:Hp; cbn; [| done].
    apply persist_frame in Hp as (_ & _ & Hls & Hi & _ & Hout & Hn).
    rewrite next_set_result, inflight_set_result, listeners_set_result,
      outcomes_set_result_other by exact Hk.
    rewrite Hn, Hi, Hls, Hout. done.
Qed.

Lemma asleep_listeners names c event (fired : list (string * nat)) : ∀ s,
  Forall (λ l, l.2 ≠ c) fired →
  asleep names c s →
  asleep names c (foldl (λ s l, listener l.2 event s) s fired)
  ∧ outcomes (foldl (λ s l, listener l.2 event s) s fired) !! c = outcomes s !! c.
Proof.
  induction fired as [| l fired IH]; intros s Hf H; cbn [foldl]; [done |].
  inversion Hf as [| ? ? Hl Hf']; subst.
  destruct (IH (listener l.2 event s) Hf') as [IH1 IH2]; [| done].
  destruct H as (Hlt & Hq & Hls).
  split; [exact Hlt | split; [| exact Hls]]. cbn.
  apply Forall_app. split; [exact Hq |]. repeat constructor. exact Hl.
Qed.

Lemma asleep_step names c s x :
  asleep names c s →
  not_emit names x →
  asleep names c (step s x) ∧ outcomes (step s x) !! c = outcomes s !! c.
Proof.
  intros H Hx. destruct x as [path sc cats | | r | name event]; cbn [step].
  - destruct H as (Hlt & Hq & Hl).
    destruct (start_frame path sc cats s) as (Hn & Hi & Ho).
    assert (Hls : listeners (start path sc cats s) = listeners s)
      by (unfold start, fresh; destruct sc, cats; reflexivity).
    unfold asleep. rewrite Hn, Hi, Ho, Hls.
    split; [| reflexivity]. split; [lia | split; [| exact Hl]].
    apply Forall_app. split; [exact Hq |]. repeat constructor. cbn. lia.
  - destruct H as (Hlt & Hq & Hl).
    split; [| reflexivity]. split; [cbn; lia | split]; cbn.
    + apply Forall_app. split; [exact Hq |]. repeat constructor. cbn. lia.
    + apply Forall_app. split; [exact Hl |]. repeat constructor. cbn. lia.
  - unfold answer. destruct (inflight s) as [| k q] eqn:E; [done |].
    destruct H as (Hlt & Hq & Hl). rewrite E in Hq.
    inversion Hq as [| ? ? Hk Hq']; subst.
    apply (asleep_resume names c k r (set_inflight q s) Hk). done.
  - cbn in Hx. unfold emit.
    destruct H as (Hlt & Hq & Hl).
    apply (asleep_listeners names c event _
             (set_listeners (filter (λ l : string * nat, l.1 ≠ name) (listeners s)) s)).
    + apply Forall_forall. intros l Hin Hc.
      apply list_elem_of_filter in Hin as [Hname Hin].
      rewrite Forall_forall in Hl. apply Hx. rewrite <- Hname. exact (Hl l Hin Hc).
    + split; [exact Hlt | split; [exact Hq |]]. cbn.
      apply Forall_forall. intros l Hin.
      apply list_elem_of_filter in Hin as [_ Hin].
      rewrite Forall_forall in Hl. exact (Hl l Hin).
Qed.

Lemma asleep_run names c xs : ∀ s,
  asleep names c s →
  Forall (not_emit names) xs →
  outcomes (run s xs) !! c = outcomes s !! c.
Proof.
  induction xs as [| x xs IH]; intros s H Hxs; cbn; [reflexivity |].
  inversion Hxs as [| ? ? Hx Hxs']; subst.
  destruct (asleep_step names c s x H Hx) as [H' Ho].
  fold (run (step s x) xs). rewrite (IH _ H' Hxs'). exact Ho.
Qed.

Lemma not_emit_nothing xs : Forall (not_emit (λ _, False)) xs.
Proof. apply Forall_forall. intros [] _; cbn; auto. Qed.

(** [stop] once ['Tracing.end'] has been answered, in a system where no
    other command is unanswered: it is suspended on its [contentFuture]. *)
Lemma stop_answered s ended :
  inflight s = [] →
  futures s !! next s = None →
  run s [CallStop; Reply (Response ended)] =
  mkState false (_path s) (heap s) (files s)
    (issued s ++ [Once "Tracing.tracingComplete"; Send "Tracing.end" None])
    (listeners s ++ [("Tracing.tracingComplete", next s)]) []
    (<[next s := Awaited]> (futures s)) (outcomes s) (S (next s)).
Proof.
  intros Hq Hf. cbn [run foldl step]. unfold stop, fresh, answer. cbn.
  rewrite Hq. cbn. rewrite Hf.
  unfold client_send, client_once. cbn. rewrite <- app_assoc. reflexivity.
Qed.

(** [stop] once ['Tracing.end'] has failed: it has raised, and its listener
    is still registered. *)
Lemma stop_failed s e :
  inflight s = [] →
  run s [CallStop; Reply (Failure e)] =
  mkState (_recording s) (_path s) (heap s) (files s)
    (issued s ++ [Once "Tracing.tracingComplete"; Send "Tracing.end" None])
    (listeners s ++ [("Tracing.tracingComplete", next s)]) []
    (futures s) (<[next s := Raised e]> (outcomes s)) (S (next s)).
Proof.
  intros Hq. cbn [run foldl step]. unfold stop, fresh, answer. cbn.
  rewrite Hq. cbn. unfold finish, client_send, client_once. cbn.
  rewrite <- app_assoc. reflexivity.
Qed.

(** A drain suspended on its close, answered with a failure or with chunks
    that cannot be joined, ends without a result. *)
Lemma close_without_result h p bufs f r s :
  inflight s = [AtClose h p bufs f] →
  (∃ e, r = Failure e) ∨ join_bufs bufs = None →
  answer r s = set_inflight [] s.
Proof.
  intros Hq Hr. unfold answer. rewrite Hq.
  destruct r as [d | e]; [| reflexivity].
  destruct Hr as [[e He] | Hj]; [discriminate |].
  unfold resume, resume_close. rewrite Hj. reflexivity.
Qed.

(** A drain served the whole stream whose close is answered with a failure,
    or whose chunks cannot be joined: all it leaves is its commands. *)
Lemma drain_dies_at_close s h p f pre last r :
  inflight s = [] →
  Forall (λ d, eof_of d = false) pre →
  eof_of last = true →
  (∃ e, r = Failure e)
  ∨ join_bufs (map (λ d, dict_get d "data" (VStr "")) (pre ++ [last])) = None →
  run (_readStream h p f s) (responses (pre ++ [last]) ++ [Reply r]) =
  set_issued (issued s ++ replicate (S (length pre)) (io_read h) ++ [io_close h]) s.
Proof.
  intros Hq Hpre Hlast Hr.
  rewrite run_app, (drain_to_close s h p f pre last Hq Hpre Hlast).
  cbn [run foldl step].
  erewrite close_without_result; [| reflexivity | exact Hr].
  destruct s; cbn in *; subst; reflexivity.
Qed.

(** ** When the drain fails *)

(** X2: when an [IO.read] of the drain fails, [stop] never ends: whatever
    happens afterwards, it neither returns nor raises. *)
Theorem stop_never_ends_after_read_failure s ended event pre e xs :
  inflight s = [] →
  listeners s = [] →
  futures s !! next s = None →
  outcomes s !! next s = None →
  Forall (λ d, eof_of d = false) pre →
  outcomes (run s ([ CallStop; Reply (Response ended);
                     Emit "Tracing.tracingComplete" event ]
                   ++ (responses pre ++ [Reply (Failure e)]) ++ xs)) !! next s
  = None.
Proof.
  intros Hq Hl Hf Ho Hpre.
  rewrite run_app, (stop_then_complete s ended event Hq Hl Hf), run_app.
  rewrite drain_read_failure by done.
  rewrite (asleep_run (λ _, False) (next s)); [exact Ho | | apply not_emit_nothing].
  split; [cbn; lia | split; constructor].
Qed.

Lemma stop_never_ends_after_read_failure_witness :
  outcomes
    (run (init (λ _, []))
         ([ CallStop; Reply (Response ∅);
            Emit "Tracing.tracingComplete" {["stream" := VStr "h1"]} ]
          ++ (responses [ <["data" := VStr "ab"]> ∅ ]
              ++ [Reply (Failure (SessionError "Target closed"))])
          ++ [ Emit "Tracing.tracingComplete" {["stream" := VStr "h1"]};
               Reply (Response ∅) ])) !! 0
  = None.
Proof.
  refine (stop_never_ends_after_read_failure (init (λ _, [])) ∅
            {["stream" := VStr "h1"]} [ <["data" := VStr "ab"]> ∅ ]
            (SessionError "Target closed")
            [ Emit "Tracing.tracingComplete" {["stream" := VStr "h1"]};
              Reply (Response ∅) ]
            eq_refl eq_refl eq_refl eq_refl _).
  repeat constructor.
Defined.

(** X3: when the drain has read the whole stream and its [IO.close] fails,
    the trace is lost: no file is written, and [stop] never ends. *)
Theorem trace_lost_when_close_fails s ended event pre last e :
  inflight s = [] →
  listeners s = [] →
  futures s !! next s = None →
  outcomes s !! next s = None →
  Forall (λ d, eof_of d = false) pre →
  eof_of last = true →
  files (run s ([ CallStop; Reply (Response ended);
                  Emit "Tracing.tracingComplete" event ]
                ++ responses (pre ++ [last]) ++ [Reply (Failure e)])) = files s
  ∧ ∀ xs,
      outcomes (run s ([ CallStop; Reply (Response ended);
                         Emit "Tracing.tracingComplete" event ]
                       ++ (responses (pre ++ [last]) ++ [Reply (Failure e)]) ++ xs))
        !! next s
      = None.
Proof.
  intros Hq Hl Hf Ho Hpre Hlast. split.
  - rewrite run_app, (stop_then_complete s ended event Hq Hl Hf).
    rewrite drain_dies_at_close by eauto. reflexivity.
  - intros xs.
    rewrite run_app, (stop_then_complete s ended event Hq Hl Hf), run_app.
    rewrite drain_dies_at_close by eauto.
    rewrite (asleep_run (λ _, False) (next s)); [exact Ho | | apply not_emit_nothing].
    split; [cbn; lia | split; constructor].
Qed.

Lemma trace_lost_when_close_fails_witness :
  let s := run (init (λ _, [])) [CallStart "trace.json" false ANone; Reply (Response ∅)] in
  files (run s ([ CallStop; Reply (Response ∅);
                  Emit "Tracing.tracingComplete" {["stream" := VStr "h1"]} ]
                ++ responses ([] ++ [ <["data" := VStr "X"]> (<["eof" := VBool true]> ∅) ])
                ++ [Reply (Failure (SessionError "Target closed"))]))
  = files s.
Proof.
  intros s.
  refine (proj1
    (trace_lost_when_close_fails s ∅ {["stream" := VStr "h1"]} []
       (<["data" := VStr "X"]> (<["eof" := VBool true]> ∅))
       (SessionError "Target closed") _ _ _ _ _ _));
    try (vm_compute; reflexivity).
  constructor.
Defined.

(** X4: when a chunk is not a string, the drain still reads the stream to
    its end and closes the handle; joining the chunks then raises, inside
    the task: no file is written, and [stop] never ends. *)
Theorem stop_never_ends_after_bad_chunk s ended event pre last closed :
  inflight s = [] →
  listeners s = [] →
  futures s !! next s = None →
  outcomes s !! next s = None →
  Forall (λ d, eof_of d = false) pre →
  eof_of last = true →
  join_bufs (map (λ d, dict_get d "data" (VStr "")) (pre ++ [last])) = None →
  let s' := run s ([ CallStop; Reply (Response ended);
                     Emit "Tracing.tracingComplete" event ]
                   ++ responses (pre ++ [last]) ++ [Reply (Response closed)]) in
  issued s' =
    issued s ++ [Once "Tracing.tracingComplete"; Send "Tracing.end" None]
    ++ replicate (length pre + 1) (io_read (dict_get event "stream" VNone))
    ++ [io_close (dict_get event "stream" VNone)]
  ∧ files s' = files s
  ∧ ∀ xs, outcomes (run s' xs) !! next s = None.
Proof.
  intros Hq Hl Hf Ho Hpre Hlast Hbad s'. subst s'.
  rewrite run_app, (stop_then_complete s ended event Hq Hl Hf).
  rewrite drain_dies_at_close by eauto.
  replace (length pre + 1) with (S (length pre)) by lia.
  split; [| split].
  - cbn. rewrite <- app_assoc. reflexivity.
  - reflexivity.
  - intros xs.
    rewrite (asleep_run (λ _, False) (next s)); [exact Ho | | apply not_emit_nothing].
    split; [cbn; lia | split; constructor].
Qed.

Lemma stop_never_ends_after_bad_chunk_witness :
  let s := run (init (λ _, [])) [CallStart "trace.json" false ANone; Reply (Response ∅)] in
  files (run s ([ CallStop; Reply (Response ∅);
                  Emit "Tracing.tracingComplete" {["stream" := VStr "h1"]} ]
                ++ responses ([ <["data" := VInt 7]> ∅ ]
                              ++ [ <["data" := VStr "X"]> (<["eof" := VBool true]> ∅) ])
                ++ [Reply (Response ∅)]))
  = files s.
Proof.
  intros s.
  refine (proj1 (proj2
    (stop_never_ends_after_bad_chunk s ∅ {["stream" := VStr "h1"]}
       [ <["data" := VInt 7]> ∅ ]
       (<["data" := VStr "X"]> (<["eof" := VBool true]> ∅)) ∅ _ _ _ _ _ _ _)));
    try (vm_compute; reflexivity).
  repeat constructor.
Defined.

(** ** When the completion signal does not come *)

(** X5: [stop] whose ['Tracing.end'] has been answered waits for the
    completion signal and for nothing else: as long as the session does not
    emit ['Tracing.tracingComplete'], whatever else happens (answers, other
    events, further calls of [start] and [stop]), it neither returns nor
    raises. *)
Theorem stop_waits_for_signal s ended xs :
  inflight s = [] →
  futures s !! next s = None →
  outcomes s !! next s = None →
  Forall (λ l, l.2 ≠ next s) (listeners s) →
  Forall (not_emit (λ name, name = "Tracing.tracingComplete")) xs →
  outcomes (run s ([CallStop; Reply (Response ended)] ++ xs)) !! next s = None.
Proof.
  intros Hq Hf Ho Hl Hxs.
  rewrite run_app, (stop_answered s ended Hq Hf).
  rewrite (asleep_run (λ name, name = "Tracing.tracingComplete") (next s));
    [exact Ho | | exact Hxs].
  split; [cbn; lia | split; [constructor |]]. cbn.
  apply Forall_app. split.
  - eapply Forall_impl; [exact Hl |]. intros l Hne Heq. contradiction.
  - repeat constructor.
Qed.

Lemma stop_waits_for_signal_witness :
  outcomes
    (run (init (λ _, []))
         ([CallStop; Reply (Response ∅)]
          ++ [ Emit "Tracing.dataCollected" ∅;
               CallStart "" false ANone; Reply (Response ∅);
               CallStop; Reply (Failure (SessionError "Target closed")) ])) !! 0
  = None.
Proof.
  refine (stop_waits_for_signal (init (λ _, [])) ∅
            [ Emit "Tracing.dataCollected" ∅;
              CallStart "" false ANone; Reply (Response ∅);
              CallStop; Reply (Failure (SessionError "Target closed")) ]
            eq_refl eq_refl eq_refl _ _).
  - constructor.
  - repeat constructor. cbn. discriminate.
Defined.

(** ** The path the trace is written to *)

(** X6: the drain writes to the path that [_path] holds when the completion
    signal arrives, not to the one it held when [stop] was called: if
    [start] is called again between the answer to ['Tracing.end'] and the
    signal, the trace of the capture that was stopped is written to the
    path of the new [start], the earlier path is not written to, and the
    flag is left set by the new [start].  This is so when nothing keeps the
    file at the new path from being written. *)
Theorem trace_goes_to_latest_path s ended path screenshots categories answered
    event pre last closed :
  inflight s = [] →
  listeners s = [] →
  futures s !! next s = None →
  Forall (λ d, eof_of d = false) pre →
  eof_of last = true →
  Forall data_ok (pre ++ [last]) →
  can_persist path s →
  let s' := run s ([ CallStop; Reply (Response ended);
                     CallStart path screenshots categories; Reply (Response answered);
                     Emit "Tracing.tracingComplete" event ]
                   ++ responses (pre ++ [last]) ++ [Reply (Response closed)]) in
  let result := str_join "" (map chunk_of (pre ++ [last])) in
  outcomes s' !! next s = Some (Returned (VStr result))
  ∧ files s' = (if String.eqb path "" then files s
                else <[path := File result]> (files s))
  ∧ _recording s' = true.
Proof.
  intros Hq Hl Hf Hpre Hlast Hdata Hw s' result. subst s' result.
  change (run s ([ CallStop; Reply (Response ended);
                   CallStart path screenshots categories; Reply (Response answered);
                   Emit "Tracing.tracingComplete" event ]
                 ++ responses (pre ++ [last]) ++ [Reply (Response closed)]))
    with (run (emit "Tracing.tracingComplete" event
                 (step (step (run s [CallStop; Reply (Response ended)])
                             (CallStart path screenshots categories))
                       (Reply (Response answered))))
              (responses (pre ++ [last]) ++ [Reply (Response closed)])).
  rewrite (stop_answered s ended Hq Hf), Hl.
  rewrite start_answered by reflexivity.
  rewrite (emit_single event (next s)) by reflexivity.
  rewrite drain_complete by done.
  cbn [task_done]. unfold set_result.
  cbn [_recording _path files futures outcomes next set_files set_issued set_listeners].
  destruct (String.eqb path "");
    cbn [_recording _path files futures outcomes next set_files set_issued
         set_listeners id];
    rewrite lookup_insert_eq;
    cbn [_recording _path files futures outcomes next finish set_futures set_outcomes];
    (split; [apply lookup_insert_eq | split; reflexivity]).
Qed.

Lemma trace_goes_to_latest_path_witness :
  let s := run (init (λ _, [])) [CallStart "first.json" false ANone; Reply (Response ∅)] in
  files (run s ([ CallStop; Reply (Response ∅);
                  CallStart "second.json" false ANone; Reply (Response ∅);
                  Emit "Tracing.tracingComplete" {["stream" := VStr "h1"]} ]
                ++ responses ([] ++ [ <["data" := VStr "X"]> (<["eof" := VBool true]> ∅) ])
                ++ [Reply (Response ∅)]))
  = <["second.json" := File "X"]> (files s).
Proof.
  intros s.
  refine (proj1 (proj2
    (trace_goes_to_latest_path s ∅ "second.json" false ANone ∅
       {["stream" := VStr "h1"]} []
       (<["data" := VStr "X"]> (<["eof" := VBool true]> ∅)) ∅ _ _ _ _ _ _ _)));
    try (vm_compute; reflexivity).
  - constructor.
  - repeat constructor; intros v Hv; vm_compute in Hv;
      injection Hv as <-; eexists; reflexivity.
  - right. intros Hlocked. vm_compute in Hlocked. discriminate Hlocked.
Defined.

(** ** The listener of a [stop] that failed *)

(** Either nothing keeps the file at [p] from being written, or [p] is not
    empty and what is at [p] cannot be written. *)
Lemma can_persist_cases p s :
  can_persist p s ∨ (p ≠ "" ∧ files s !! p = Some Locked).
Proof.
  unfold can_persist. destruct (decide (p = "")) as [-> | Hne]; [auto |].
  destruct (files s !! p) as [[c |] |] eqn:E.
  - left. right. discriminate.
  - right. auto.
  - left. right. discriminate.
Qed.

(** A drain served the whole stream that cannot write its file: all it
    leaves is its commands. *)
Lemma drain_write_fails s h p f pre last closed :
  inflight s = [] →
  Forall (λ d, eof_of d = false) pre →
  eof_of last = true →
  Forall data_ok (pre ++ [last]) →
  p ≠ "" →
  files s !! p = Some Locked →
  run (_readStream h p f s) (responses (pre ++ [last]) ++ [Reply (Response closed)]) =
  set_issued (issued s ++ replicate (S (length pre)) (io_read h) ++ [io_close h]) s.
Proof.
  intros Hq Hpre Hlast Hdata Hne Hlocked.
  rewrite run_app, (drain_to_close s h p f pre last Hq Hpre Hlast).
  cbn [run foldl step]. unfold answer. cbn [inflight set_inflight resume resume_close].
  unfold join_bufs. rewrite (all_str_chunks _ Hdata). cbn [fmap option_fmap option_map].
  rewrite persist_locked by (exact Hne || exact Hlocked). cbn [task_done].
  destruct s; cbn in *; subst; reflexivity.
Qed.

(** X7: a [stop] whose ['Tracing.end'] fails raises and leaves its listener
    registered.  A completion signal that comes later still starts the
    drain: the stream is read and closed and, when nothing keeps it from
    being written, the file at [_path] is written, while [stop] has long
    ended with the error and no caller receives the data. *)
Theorem failed_stop_leaves_listener s e event pre last closed :
  inflight s = [] →
  listeners s = [] →
  futures s !! next s = None →
  Forall (λ d, eof_of d = false) pre →
  eof_of last = true →
  Forall data_ok (pre ++ [last]) →
  listeners (run s [CallStop; Reply (Failure e)]) =
    [("Tracing.tracingComplete", next s)]
  ∧ let s' := run s ([ CallStop; Reply (Failure e);
                       Emit "Tracing.tracingComplete" event ]
                     ++ responses (pre ++ [last]) ++ [Reply (Response closed)]) in
    let result := str_join "" (map chunk_of (pre ++ [last])) in
    let handle := dict_get event "stream" VNone in
    outcomes s' !! next s = Some (Raised e)
    ∧ issued s' =
        issued s ++ [Once "Tracing.tracingComplete"; Send "Tracing.end" None]
        ++ replicate (length pre + 1) (io_read handle) ++ [io_close handle]
    ∧ (can_persist (_path s) s →
       files s' = (if String.eqb (_path s) "" then files s
                   else <[_path s := File result]> (files s)))
    ∧ listeners s' = []
    ∧ _recording s' = _recording s.
Proof.
  intros Hq Hl Hf Hpre Hlast Hdata. split.
  - rewrite (stop_failed s e Hq), Hl. reflexivity.
  - intros s' result handle. subst s' result handle.
    change (run s ([ CallStop; Reply (Failure e);
                     Emit "Tracing.tracingComplete" event ]
                   ++ responses (pre ++ [last]) ++ [Reply (Response closed)]))
      with (run (emit "Tracing.tracingComplete" event
                   (run s [CallStop; Reply (Failure e)]))
                (responses (pre ++ [last]) ++ [Reply (Response closed)])).
    rewrite (stop_failed s e Hq), Hl.
    rewrite (emit_single event (next s)) by reflexivity.
    replace (length pre + 1) with (S (length pre)) by lia.
    destruct (can_persist_cases (_path s) s) as [Hw | [Hne Hlocked]].
    + rewrite drain_complete by done.
      cbn [task_done]. unfold set_result.
      cbn [_recording _path files futures outcomes next set_files set_issued
           set_listeners].
      destruct (String.eqb (_path s) "");
        cbn [_recording _path files futures outcomes next set_files set_issued
             set_listeners id];
        rewrite Hf; cbn;
        rewrite <- app_assoc;
        (split; [apply lookup_insert_eq | repeat split]).
    + rewrite drain_write_fails by done.
      cbn. rewrite <- app_assoc.
      split; [apply lookup_insert_eq | split; [reflexivity | split; [| auto]]].
      intros [Hw | Hw]; contradiction.
Qed.

Lemma failed_stop_leaves_listener_witness :
  let s := run (init (λ _, [])) [CallStart "trace.json" false ANone; Reply (Response ∅)] in
  listeners (run s [CallStop; Reply (Failure (SessionError "Target closed"))]) =
  [("Tracing.tracingComplete", next s)].
Proof.
  intros s.
  refine (proj1
    (failed_stop_leaves_listener s (SessionError "Target closed")
       {["stream" := VStr "h1"]} []
       (<["data" := VStr "X"]> (<["eof" := VBool true]> ∅)) ∅ _ _ _ _ _ _));
    try (vm_compute; reflexivity).
  - constructor.
  - repeat constructor; intros v Hv; vm_compute in Hv;
      injection Hv as <-; eexists; reflexivity.
Defined.

(** ** Lists and [start] *)

(** X8: what repeated calls with the same list put on the wire: the filter
    sent by the [k]-th call ends with [k] screenshot tokens, one more than
    the call before. *)
Theorem repeated_start_accumulates_on_wire path l n : ∀ s,
  issued (run s (replicate n (CallStart path true (AList l)))) =
  issued s ++
  map (λ k, Send "Tracing.start"
              (Some (<["transferMode" := VStr "ReturnAsStream"]>
                       (<["categories" :=
                            VStr (str_join ","
                                    (heap s l ++
                                     replicate (S k)
                                       "disabled-by-default-devtools.screenshot"))]> ∅))))
      (seq 0 n).
Proof.
  induction n as [| n IH]; intros s.
  - cbn. rewrite app_nil_r. reflexivity.
  - cbn [replicate run foldl]. fold (run (step s (CallStart path true (AList l)))).
    rewrite IH. cbn [step]. rewrite start_issued, heap_start_list.
    cbn [seq map]. rewrite <- app_assoc. f_equal. cbn [app]. f_equal.
    rewrite <- seq_shift, map_map. apply map_ext. intros k.
    rewrite <- app_assoc. reflexivity.
Qed.

(** X9: [start] changes no list but the one it is given, and that one only
    when [screenshots] is true: a tuple, a string, [None], or any argument
    with [screenshots] false leaves every list object as it was. *)
Theorem start_mutates_nothing_else path screenshots categories s l' :
  screenshots = false ∨ categories ≠ AList l' →
  heap (start path screenshots categories s) l' = heap s l'.
Proof.
  intros H. unfold start, fresh.
  destruct screenshots; [| reflexivity].
  destruct H as [H | H]; [discriminate |].
  destruct categories as [| z | str | xs | l]; cbn; try reflexivity.
  rewrite decide_False; [reflexivity |]. intros ->. apply H. reflexivity.
Qed.

Lemma start_mutates_nothing_else_witness :
  let s := init (λ l, if decide (l = 0) then ["a"] else ["b"]) in
  heap (start "" true (AList 1) s) 0 = heap s 0.
Proof.
  intros s. apply start_mutates_nothing_else. right. discriminate.
Defined.

(** X10: the default filter is built anew by every call: however often
    [start] is called without a usable [categories], each call sends the
    twelve defaults followed by at most one screenshot token. *)
Theorem repeated_default_start_is_stable path (screenshots : bool) categories n : ∀ s,
  (∀ s', py_list categories s' = None) →
  issued (run s (replicate n (CallStart path screenshots categories))) =
  issued s ++
  replicate n
    (Send "Tracing.start"
       (Some (<["transferMode" := VStr "ReturnAsStream"]>
                (<["categories" :=
                     VStr (str_join ","
                             (defaultCategories ++
                              if screenshots
                              then ["disabled-by-default-devtools.screenshot"]
                              else []))]> ∅)))).
Proof.
  intros s H. revert s. induction n as [| n IH]; intros s.
  - cbn. rewrite app_nil_r. reflexivity.
  - cbn [replicate run foldl]. fold (run (step s (CallStart path screenshots categories))).
    rewrite IH. cbn [step]. rewrite start_issued, <- app_assoc.
    specialize (H s). destruct categories; cbn in H; try discriminate; reflexivity.
Qed.

Lemma repeated_default_start_is_stable_witness :
  issued (run (init (λ _, [])) (replicate 2 (CallStart "" true ANone))) =
  issued (init (λ _, [])) ++
  replicate 2
    (Send "Tracing.start"
       (Some (<["transferMode" := VStr "ReturnAsStream"]>
                (<["categories" :=
                     VStr (str_join ","
                             (defaultCategories ++
                              ["disabled-by-default-devtools.screenshot"]))]> ∅)))).
Proof.
  exact (repeated_default_start_is_stable "" true ANone 2 (init (λ _, []))
           (λ _, eq_refl)).
Defined.

(** ** Two calls of [stop] *)

Lemma emit_pair event a b r p h f i q fu o n :
  emit "Tracing.tracingComplete" event
    (mkState r p h f i
       [("Tracing.tracingComplete", a); ("Tracing.tracingComplete", b)] q fu o n) =
  listener b event (listener a event (mkState r p h f i [] q fu o n)).
Proof.
  unfold emit. cbn [listeners].
  rewrite !(filter_cons_False (λ l : string * nat, l.1 ≠ "Tracing.tracingComplete"))
    by (cbn; auto).
  rewrite !filter_cons_True by reflexivity. reflexivity.
Qed.

(** X11: when [stop] is called twice before the completion signal, both
    listeners are registered for it, and the one signal starts two drains
    of the same handle, one for each call: two [IO.read] for that handle
    are unanswered at the same time. *)
Theorem one_signal_starts_a_drain_per_stop s ended ended' event :
  inflight s = [] →
  listeners s = [] →
  futures s !! next s = None →
  futures s !! S (next s) = None →
  let s' := run s [ CallStop; CallStop; Reply (Response ended);
                    Reply (Response ended');
                    Emit "Tracing.tracingComplete" event ] in
  let handle := dict_get event "stream" VNone in
  issued s' =
    issued s ++ [ Once "Tracing.tracingComplete"; Send "Tracing.end" None;
                  Once "Tracing.tracingComplete"; Send "Tracing.end" None;
                  io_read handle; io_read handle ]
  ∧ inflight s' = [ AtRead handle (_path s) [] (next s);
                    AtRead handle (_path s) [] (S (next s)) ]
  ∧ listeners s' = [].
Proof.
  intros Hq Hl Hf Hf' s' handle. subst s' handle.
  change (run s [ CallStop; CallStop; Reply (Response ended);
                  Reply (Response ended'); Emit "Tracing.tracingComplete" event ])
    with (emit "Tracing.tracingComplete" event
            (answer (Response ended') (answer (Response ended) (stop (stop s))))).
  rewrite !stop_state.
  cbn [_recording _path heap files issued listeners inflight futures outcomes next].
  rewrite Hq, Hl. cbn [app].
  rewrite answer_stop_waits by exact Hf.
  rewrite answer_stop_waits by (rewrite lookup_insert_ne by lia; exact Hf').
  rewrite emit_pair.
  unfold listener, _readStream, read_next, client_send.
  cbn [_recording _path heap files issued listeners inflight futures outcomes next
       set_issued set_listeners set_inflight app].
  rewrite <- !app_assoc. repeat split.
Qed.

Lemma one_signal_starts_a_drain_per_stop_witness :
  inflight (run (init (λ _, []))
                [ CallStop; CallStop; Reply (Response ∅); Reply (Response ∅);
                  Emit "Tracing.tracingComplete" {["stream" := VStr "h1"]} ])
  = [ AtRead (VStr "h1") "" [] 0; AtRead (VStr "h1") "" [] 1 ].
Proof.
  exact (proj1 (proj2
    (one_signal_starts_a_drain_per_stop (init (λ _, [])) ∅ ∅
       {["stream" := VStr "h1"]} eq_refl eq_refl eq_refl eq_refl))).
Defined.

(** ** One capture after another *)

Lemma capture_state s path screenshots categories event pre last :
  inflight s = [] →
  listeners s = [] →
  futures s !! S (next s) = None →
  Forall (λ d, eof_of d = false) pre →
  eof_of last = true →
  Forall data_ok (pre ++ [last]) →
  can_persist path s →
  run s (capture path screenshots categories event (pre ++ [last])) =
  mkState false path (heap (start path screenshots categories s))
    (if String.eqb path "" then files s
     else <[path := File (str_join "" (map chunk_of (pre ++ [last])))]> (files s))
    (issued (start path screenshots categories s)
     ++ [Once "Tracing.tracingComplete"; Send "Tracing.end" None]
     ++ replicate (S (length pre)) (io_read (dict_get event "stream" VNone))
     ++ [io_close (dict_get event "stream" VNone)])
    [] []
    (<[S (next s) := Resolved (VStr (str_join "" (map chunk_of (pre ++ [last]))))]>
       (<[S (next s) := Awaited]> (futures s)))
    (<[S (next s) := Returned (VStr (str_join "" (map chunk_of (pre ++ [last]))))]>
       (<[next s := Returned VNone]> (outcomes s)))
    (S (S (next s))).
Proof.
  intros Hq Hl Hf Hpre Hlast Hdata Hw. unfold capture.
  change (run s ([ CallStart path screenshots categories; Reply (Response ∅);
                   CallStop; Reply (Response ∅);
                   Emit "Tracing.tracingComplete" event ]
                 ++ responses (pre ++ [last]) ++ [Reply (Response ∅)]))
    with (run (step (step s (CallStart path screenshots categories))
                    (Reply (Response ∅)))
              ([ CallStop; Reply (Response ∅);
                 Emit "Tracing.tracingComplete" event ]
               ++ responses (pre ++ [last]) ++ [Reply (Response ∅)])).
  rewrite (start_answered path screenshots categories ∅ s Hq).
  rewrite capture_completes by (cbn [inflight listeners futures next]; done).
  cbn [_path files heap issued futures outcomes next]. reflexivity.
Qed.

(** X12: captures compose.  Two whole captures, one after the other, with
    the same non-empty path, which nothing keeps from being written: each
    [stop] returns the chunks of its own stream, and the file holds the
    second trace only, the first having been overwritten. *)
Theorem second_capture_overwrites s path sc1 cats1 ev1 pre1 last1 sc2 cats2 ev2 pre2 last2 :
  inflight s = [] →
  listeners s = [] →
  futures s !! S (next s) = None →
  futures s !! S (S (S (next s))) = None →
  path ≠ "" →
  files s !! path ≠ Some Locked →
  Forall (λ d, eof_of d = false) pre1 → eof_of last1 = true →
  Forall data_ok (pre1 ++ [last1]) →
  Forall (λ d, eof_of d = false) pre2 → eof_of last2 = true →
  Forall data_ok (pre2 ++ [last2]) →
  let s' := run s (capture path sc1 cats1 ev1 (pre1 ++ [last1])
                   ++ capture path sc2 cats2 ev2 (pre2 ++ [last2])) in
  outcomes s' !! S (next s) =
    Some (Returned (VStr (str_join "" (map chunk_of (pre1 ++ [last1])))))
  ∧ outcomes s' !! S (S (S (next s))) =
    Some (Returned (VStr (str_join "" (map chunk_of (pre2 ++ [last2])))))
  ∧ files s' =
    <[path := File (str_join "" (map chunk_of (pre2 ++ [last2])))]> (files s).
Proof.
  intros Hq Hl Hf Hf' Hp Hw Hpre1 Hlast1 Hd1 Hpre2 Hlast2 Hd2 s'. subst s'.
  assert (Hne : String.eqb path "" = false) by (apply String.eqb_neq; exact Hp).
  rewrite run_app, (capture_state s) by (done || (right; exact Hw)).
  rewrite capture_state; [| reflexivity | reflexivity | | done | done | done |].
  2:{ cbn [futures next]. rewrite !lookup_insert_ne by lia. exact Hf'. }
  2:{ right. cbn [files]. rewrite Hne, lookup_insert_eq. discriminate. }
  cbn [outcomes files next]. rewrite Hne.
  split; [| split].
  - rewrite !lookup_insert_ne by lia. apply lookup_insert_eq.
  - apply lookup_insert_eq.
  - apply insert_insert_eq.
Qed.

Lemma second_capture_overwrites_witness :
  files (run (init (λ _, []))
             (capture "trace.json" false ANone {["stream" := VStr "h1"]}
                ([] ++ [ <["data" := VStr "one"]> (<["eof" := VBool true]> ∅) ])
              ++ capture "trace.json" false ANone {["stream" := VStr "h2"]}
                   ([] ++ [ <["data" := VStr "two"]> (<["eof" := VBool true]> ∅) ])))
  = <["trace.json" := File "two"]> ∅.
Proof.
  refine (proj2 (proj2
    (second_capture_overwrites (init (λ _, [])) "trace.json"
       false ANone {["stream" := VStr "h1"]} []
       (<["data" := VStr "one"]> (<["eof" := VBool true]> ∅))
       false ANone {["stream" := VStr "h2"]} []
       (<["data" := VStr "two"]> (<["eof" := VBool true]> ∅))
       eq_refl eq_refl eq_refl eq_refl _ _ _ eq_refl _ _ eq_refl _))).
  - discriminate.
  - cbn [files init]. rewrite lookup_empty. discriminate.
  - constructor.
  - repeat constructor; intros v Hv; vm_compute in Hv;
      injection Hv as <-; eexists; reflexivity.
  - constructor.
  - repeat constructor; intros v Hv; vm_compute in Hv;
      injection Hv as <-; eexists; reflexivity.
Defined.

(** ** One drain for each [stop] *)

Lemma resume_frame k r s :
  next (resume k r s) = next s
  ∧ listeners (resume k r s) = listeners s
  ∧ ∃ more, inflight (resume k r s) = inflight s ++ more
            ∧ ∀ f, (length (List.filter (drain_of f) more) ≤ Nat.b2n (drain_of f k))%nat.
Proof.
  destruct k as [c | c | h p bufs f0 | h p bufs f0]; cbn [resume].
  - destruct r; cbn; repeat split; exists []; rewrite app_nil_r; cbn; auto with lia.
  - destruct r as [d | e]; cbn.
    + destruct (futures s !! c) as [[|]|]; cbn; repeat split;
        exists []; rewrite app_nil_r; cbn; auto with lia.
    + repeat split; exists []; rewrite app_nil_r; cbn; auto with lia.
  - destruct r as [d | e]; cbn.
    + destruct (truthy _); cbn; repeat split; eexists; (split; [reflexivity |]);
        intros f; cbn; destruct (bool_decide (f0 = f)); cbn; lia.
    + repeat split; exists []; rewrite app_nil_r; cbn; auto with lia.
  - destruct r as [d | e]; cbn.
    + destruct (join_bufs bufs) as [result |]; cbn.
      * destruct (persist p result s) as [s' |] eqn:Hp; cbn.
        -- apply persist_frame in Hp as (_ & _ & Hls & Hi & _ & _ & Hn).
           rewrite next_set_result, listeners_set_result, inflight_set_result.
           rewrite Hn, Hls, Hi. repeat split;
             exists []; rewrite app_nil_r; cbn; auto with lia.
        -- repeat split; exists []; rewrite app_nil_r; cbn; auto with lia.
      * repeat split; exists []; rewrite app_nil_r; cbn; auto with lia.
    + repeat split; exists []; rewrite app_nil_r; cbn; auto with lia.
Qed.

Lemma load_answer f r s :
  next (answer r s) = next s ∧ (load f (answer r s) ≤ load f s)%nat.
Proof.
  unfold answer. destruct (inflight s) as [| k q] eqn:E; [auto |].
  destruct (resume_frame k r (set_inflight q s)) as (Hn & Hl & more & Hi & Hm).
  split; [exact Hn |]. unfold load. rewrite Hl, Hi, E. cbn [inflight listeners set_inflight].
  rewrite List.filter_app, length_app. cbn [List.filter].
  specialize (Hm f). destruct (drain_of f k); cbn in *; lia.
Qed.

Lemma listeners_fold event (fired : list (string * nat)) : ∀ s,
  next (foldl (λ s l, listener l.2 event s) s fired) = next s
  ∧ listeners (foldl (λ s l, listener l.2 event s) s fired) = listeners s
  ∧ inflight (foldl (λ s l, listener l.2 event s) s fired) =
    inflight s ++ map (λ l, AtRead (dict_get event "stream" VNone) (_path s) [] l.2) fired.
Proof.
  induction fired as [| l fired IH]; intros s; cbn [foldl map].
  - rewrite app_nil_r. auto.
  - destruct (IH (listener l.2 event s)) as (Hn & Hl & Hi).
    rewrite Hn, Hl, Hi. cbn. rewrite <- app_assoc. auto.
Qed.

Lemma filter_split_length f name (ls : list (string * nat)) :
  length (List.filter (armed_for f) (filter (λ l, l.1 = name) ls))
  + length (List.filter (armed_for f) (filter (λ l, l.1 ≠ name) ls))
  = length (List.filter (armed_for f) ls).
Proof.
  induction ls as [| l ls IH]; [reflexivity |].
  rewrite !filter_cons. destruct (decide (l.1 = name)) as [He | Hne].
  - rewrite decide_False by auto. cbn [List.filter].
    destruct (armed_for f l); cbn; lia.
  - rewrite decide_True by auto. cbn [List.filter].
    destruct (armed_for f l); cbn; lia.
Qed.

Lemma load_emit f name event s :
  next (emit name event s) = next s ∧ load f (emit name event s) = load f s.
Proof.
  unfold emit.
  destruct (listeners_fold event (filter (λ l, l.1 = name) (listeners s))
              (set_listeners (filter (λ l, l.1 ≠ name) (listeners s)) s))
    as (Hn & Hl & Hi).
  split; [exact Hn |]. unfold load. rewrite Hl, Hi. cbn [inflight listeners set_listeners].
  rewrite List.filter_app, length_app.
  rewrite <- (filter_split_length f name (listeners s)).
  assert (∀ fired : list (string * nat),
            length (List.filter (drain_of f)
                      (map (λ l, AtRead (dict_get event "stream" VNone)
                                   (_path (set_listeners
                                             (filter (λ l, l.1 ≠ name) (listeners s)) s))
                                   [] l.2) fired))
            = length (List.filter (armed_for f) fired)) as ->.
  { induction fired as [| l fired IH]; [reflexivity |].
    cbn [map List.filter drain_of]. unfold armed_for at 1.
    destruct (bool_decide (l.2 = f)); cbn [length]; rewrite IH; reflexivity. }
  lia.
Qed.

Lemma load_start f path sc cats s :
  load f (start path sc cats s) = load f s.
Proof.
  destruct (start_frame path sc cats s) as (_ & Hi & _).
  assert (Hls : listeners (start path sc cats s) = listeners s)
    by (unfold start, fresh; destruct sc, cats; reflexivity).
  unfold load. rewrite Hi, Hls, List.filter_app, length_app. cbn. lia.
Qed.

Lemma load_stop f s :
  load f (stop s) = load f s + (if bool_decide (next s = f) then 1 else 0).
Proof.
  rewrite stop_state. unfold load. cbn [inflight listeners].
  rewrite !List.filter_app, !length_app. cbn [List.filter drain_of length].
  unfold armed_for at 2. cbn [snd].
  destruct (bool_decide (next s = f)); cbn; lia.
Qed.

Lemma one_drain_each_step s x : one_drain_each s → one_drain_each (step s x).
Proof.
  intros H f. destruct (H f) as [H1 H0].
  destruct x as [path sc cats | | r | name event]; cbn [step].
  - rewrite load_start. destruct (start_frame path sc cats s) as (Hn & _ & _).
    rewrite Hn. split; [exact H1 | intros; apply H0; lia].
  - rewrite load_stop, stop_state. cbn [next].
    case_bool_decide as Hf.
    + subst f. rewrite H0 by lia. split; [lia | intros; lia].
    + split; [lia | intros; rewrite H0 by lia; lia].
  - destruct (load_answer f r s) as [Hn Hle]. rewrite Hn. split; [lia |].
    intros Hf. specialize (H0 Hf). lia.
  - destruct (load_emit f name event s) as [Hn He]. rewrite Hn, He. auto.
Qed.

Lemma one_drain_each_run xs : ∀ s, one_drain_each s → one_drain_each (run s xs).
Proof.
  induction xs as [| x xs IH]; intros s H; cbn; [exact H |].
  apply IH, one_drain_each_step, H.
Qed.

(** X13: in every execution that starts from a new [Tracing] object, and
    for every call of [stop], the listener of that call and the unanswered
    commands of the drain working for it are never more than one in all:
    a signal starts at most one drain for a call, and a drain never has two
    requests unanswered at the same time (each [IO.read] is awaited before
    the next one is sent). *)
Theorem at_most_one_drain h xs f : (load f (run (init h) xs) ≤ 1)%nat.
Proof.
  apply one_drain_each_run. intros f'. cbn. split; [lia | reflexivity].
Qed.

(** ** A file that cannot be written *)


